(** * The bytecode engine of orion_lang (src/vm.c)

    A shallow embedding of the evaluation stack, the dispatch loop [run],
    the error reporter [runtimeError] and the functions around them
    ([initVM], [interpretChunk], [showStack], [freeVM]), followed by the
    properties of the engine that are established about them.

    Conventions of the embedding.
    - C [double] is Rocq's primitive binary64 float ([PrimFloat.float]).
    - Counters and offsets are [Z]. The types of the fields are declared in
      vm.h, which is not part of the sources, so no wrap-around is modelled.
    - The heap buffer [stack->data] is a list of slots; a slot that was never
      written is indeterminate ([None]).  A pointer into the buffer is the
      index of its slot.
    - A call that the C standard leaves undefined (an access outside the
      buffer, a read of an indeterminate slot) yields [Undefined]; a failed
      [assert] yields [AssertFail] (assertions are compiled in).
    - Allocation succeeds.
    - The two output channels are event lists carried by the machine. *)

From Stdlib Require Import ZArith Floats String.
From stdpp Require Import base list.

Local Open Scope Z_scope.

(** ** Values (value.h) *)

(** Modelled from the spec: value.h is not part of the sources. The spec
    gives [Value] as a closed tagged union over exactly three variants,
    [Nil], [Bool(bool)] and [Number(double)]. *)
Inductive ValueType : Type := VAL_BOOL | VAL_NIL | VAL_NUMBER.

Inductive Value : Type :=
  | NIL_VAL
  | BOOL_VAL (b : bool)
  | NUMBER_VAL (n : float).

Definition type_of (v : Value) : ValueType :=
  match v with
  | NIL_VAL => VAL_NIL
  | BOOL_VAL _ => VAL_BOOL
  | NUMBER_VAL _ => VAL_NUMBER
  end.

Definition ValueType_eqb (t u : ValueType) : bool :=
  match t, u with
  | VAL_BOOL, VAL_BOOL | VAL_NIL, VAL_NIL | VAL_NUMBER, VAL_NUMBER => true
  | _, _ => false
  end.

Definition IS_NUMBER (v : Value) : bool :=
  match v with NUMBER_VAL _ => true | _ => false end.

(** Modelled from the spec: [toBool] and [isFalseyValue] are defined outside
    vm.c. The spec's truthiness rule: [Nil] and [Bool(false)] are falsey,
    [Bool(true)] and every [Number] (zero included) are truthy. *)
Definition isFalseyValue (v : Value) : bool :=
  match v with
  | NIL_VAL => true
  | BOOL_VAL b => negb b
  | NUMBER_VAL _ => false
  end.

Definition toBool (v : Value) : bool := negb (isFalseyValue v).

(** ** Outcomes of a C call *)

Inductive Outcome (A : Type) : Type :=
  | Ok (a : A)
  | AssertFail (msg : string)
  | Undefined.

Arguments Ok {A} a.
Arguments AssertFail {A} msg.
Arguments Undefined {A}.

#[global] Instance Outcome_bind : MBind Outcome := fun A B k c =>
  match c with
  | Ok a => k a
  | AssertFail msg => AssertFail msg
  | Undefined => Undefined
  end.

(** ** The evaluation stack *)

Definition Slot : Type := option Value.

Record Stack : Type := mkStack {
  data : list Slot;
  count : Z;
  capacity : Z
}.

(** [buf[i]] as an rvalue. *)
Definition load (buf : list Slot) (i : Z) : Outcome Value :=
  if (0 <=? i) && (i <? Z.of_nat (length buf))
  then match buf !! Z.to_nat i with
       | Some (Some v) => Ok v
       | _ => Undefined
       end
  else Undefined.

(** [buf[i] = v]. *)
Definition store (buf : list Slot) (i : Z) (v : Value) : Outcome (list Slot) :=
  if (0 <=? i) && (i <? Z.of_nat (length buf))
  then Ok (<[Z.to_nat i := Some v]> buf)
  else Undefined.

(** Modelled from the spec: the macro [GROW_ARRAY] of orion_memory.h is not
    part of the sources. The spec describes the growth as a reallocation that
    preserves the existing contents and their order; the slots gained are
    indeterminate. *)
Definition GROW_ARRAY (buf : list Slot) (newCap : Z) : list Slot :=
  take (Z.to_nat newCap) buf ++ replicate (Z.to_nat newCap - length buf)%nat None.

(** [STACK_DEF_CAP] is a constant of a header that is not part of the
    sources; it is an argument here. *)
Definition initStack (STACK_DEF_CAP : Z) : Stack :=
  {| data := replicate (Z.to_nat STACK_DEF_CAP) None;
     count := 0;
     capacity := STACK_DEF_CAP |}.

Definition isStackEmpty (s : Stack) : bool := count s =? 0.
Definition isStackFull (s : Stack) : bool := count s =? capacity s.

Definition pushStack (s : Stack) (value : Value) : Outcome Stack :=
  let s1 :=
    if isStackFull s then
      let cap := capacity s * 2 in
      {| data := GROW_ARRAY (data s) cap; count := count s; capacity := cap |}
    else s in
  d ← store (data s1) (count s1) value;
  Ok {| data := d; count := count s1 + 1; capacity := capacity s1 |}.

Definition popStack (s : Stack) : Outcome (Value * Stack) :=
  if isStackEmpty s then AssertFail "stack is empty"
  else
    let s1 := {| data := data s; count := count s - 1; capacity := capacity s |} in
    v ← load (data s1) (count s1);
    Ok (v, s1).

Definition peekStack (s : Stack) (distance : Z) : Outcome Value :=
  if isStackEmpty s then AssertFail "stack is empty"
  else load (data s) (count s - 1 - distance).

(** The pointer returned is the index of the slot it points to. *)
Definition peekStackReference (s : Stack) (distance : Z) : Z :=
  count s - 1 - distance.

Definition resetStack (s : Stack) : Stack :=
  {| data := data s; count := 0; capacity := capacity s |}.

(** ** Programs (chunk.h) *)

(** Modelled from the spec: chunk.h is not part of the sources. The spec
    gives a program as three read-only sequences: the code bytes, the
    constant pool, and a table with one source line per code byte. The field
    [code] is [chunk->data] in vm.c. *)
Record Chunk : Type := mkChunk {
  code : list Z;
  constants : list Value;
  lines : list Z
}.

(** The opcodes that the switch of [run] has a case for. *)
Inductive OpCode : Type :=
  | OP_RET | OP_CONSTANT | OP_TRUE | OP_FALSE | OP_NIL
  | OP_NEGATE | OP_INC | OP_DEC
  | OP_NOT | OP_AND | OP_OR | OP_XOR
  | OP_EQUAL | OP_NOT_EQUAL
  | OP_GREATER_EQUAL | OP_GREATER | OP_LESS_EQUAL | OP_LESS
  | OP_ADD | OP_SUB | OP_MULT | OP_DIV.

(** [arr[i]] for the arrays of a chunk, which are fully initialised. *)
Definition fetch {A : Type} (arr : list A) (i : Z) : Outcome A :=
  if (0 <=? i) && (i <? Z.of_nat (length arr))
  then match arr !! Z.to_nat i with
       | Some a => Ok a
       | None => Undefined
       end
  else Undefined.

(** ** The machine *)

Inductive InterpretResult : Type :=
  | INTERPRET_OK
  | INTERPRET_COMPILE_ERROR
  | INTERPRET_RUNTIME_ERROR.

(** What [printf] writes for the value returned by a run. *)
Inductive OutEvent : Type :=
  | OutText (s : string)
  | OutDouble (n : float).

(** What [runtimeError] writes: the message, then the line of the script. *)
Inductive ErrEvent : Type :=
  | ErrMessage (s : string)
  | ErrLine (line : Z).

(** [ip] is the offset [vm->ip - vm->chunk->data]. The fields [stdout] and
    [stderr] are the two channels of the process, carried with the machine. *)
Record VM : Type := mkVM {
  chunk : Chunk;
  ip : Z;
  stack : Stack;
  stdout : list OutEvent;
  stderr : list ErrEvent
}.

Definition set_ip (vm : VM) (i : Z) : VM :=
  {| chunk := chunk vm; ip := i; stack := stack vm;
     stdout := stdout vm; stderr := stderr vm |}.

Definition set_stack (vm : VM) (s : Stack) : VM :=
  {| chunk := chunk vm; ip := ip vm; stack := s;
     stdout := stdout vm; stderr := stderr vm |}.

Definition put_stdout (vm : VM) (e : OutEvent) : VM :=
  {| chunk := chunk vm; ip := ip vm; stack := stack vm;
     stdout := stdout vm ++ [e]; stderr := stderr vm |}.

Definition put_stderr (vm : VM) (e : ErrEvent) : VM :=
  {| chunk := chunk vm; ip := ip vm; stack := stack vm;
     stdout := stdout vm; stderr := stderr vm ++ [e] |}.

Definition set_data (s : Stack) (d : list Slot) : Stack :=
  {| data := d; count := count s; capacity := capacity s |}.

(** [AS_NUMBER] and [AS_BOOL] read one member of the payload union; reading
    the member that is not the active one is left undefined. *)
Definition AS_NUMBER (v : Value) : Outcome float :=
  match v with NUMBER_VAL n => Ok n | _ => Undefined end.

Definition AS_BOOL (v : Value) : Outcome bool :=
  match v with BOOL_VAL b => Ok b | _ => Undefined end.

Definition runtimeError (vm : VM) (format : string) : Outcome VM :=
  let vm := put_stderr vm (ErrMessage format) in
  let instruction := ip vm - 1 in
  line ← fetch (lines (chunk vm)) instruction;
  let vm := put_stderr vm (ErrLine line) in
  Ok (set_stack vm (resetStack (stack vm))).

(** One turn of the loop of [run] either goes on to the next turn or
    returns from [run]. *)
Inductive Step : Type :=
  | Continue (vm : VM)
  | Return (r : InterpretResult) (vm : VM).

(** The C comparison operators on [double]. *)
Definition gt (a b : float) : bool := PrimFloat.ltb b a.
Definition le (a b : float) : bool := PrimFloat.leb a b.
Definition lt (a b : float) : bool := PrimFloat.ltb a b.
Definition eq_double (a b : float) : bool := PrimFloat.eqb a b.
Definition ne_double (a b : float) : bool := negb (PrimFloat.eqb a b).
Definition eq_bool (a b : bool) : bool := Bool.eqb a b.
Definition ne_bool (a b : bool) : bool := negb (Bool.eqb a b).

Definition BINARY_OP (RESULT_VAL : float -> float -> Value) (vm : VM)
  : Outcome Step :=
  top ← peekStack (stack vm) 0;
  bad ← (if negb (IS_NUMBER top) then Ok true
         else below ← peekStack (stack vm) 1; Ok (negb (IS_NUMBER below)));
  if bad : bool then
    vm ← runtimeError vm "Operands must be numbers.";
    Ok (Return INTERPRET_RUNTIME_ERROR vm)
  else
    '(vb, s) ← popStack (stack vm);
    b ← AS_NUMBER vb;
    '(va, s) ← popStack s;
    a ← AS_NUMBER va;
    s ← pushStack s (RESULT_VAL a b);
    Ok (Continue (set_stack vm s)).

Definition BINARY_LOGIC_OP (op : bool -> bool -> bool) (vm : VM)
  : Outcome Step :=
  '(b, s) ← popStack (stack vm);
  '(a, s) ← popStack s;
  s ← pushStack s (BOOL_VAL (op (toBool a) (toBool b)));
  Ok (Continue (set_stack vm s)).

Definition EQUALITY_OP (op_bool : bool -> bool -> bool)
    (op_double : float -> float -> bool) (vm : VM) : Outcome Step :=
  '(b, s) ← popStack (stack vm);
  '(a, s) ← popStack s;
  s ← (if negb (ValueType_eqb (type_of a) (type_of b))
       then pushStack s (BOOL_VAL false)
       else match type_of a with
            | VAL_NIL => pushStack s (BOOL_VAL true)
            | VAL_BOOL =>
                x ← AS_BOOL a; y ← AS_BOOL b;
                pushStack s (BOOL_VAL (op_bool x y))
            | VAL_NUMBER =>
                x ← AS_NUMBER a; y ← AS_NUMBER b;
                pushStack s (BOOL_VAL (op_double x y))
            end);
  Ok (Continue (set_stack vm s)).

Definition THROW_IF_NAN (vm : VM) (val : Value) (rest : Outcome Step)
  : Outcome Step :=
  if negb (IS_NUMBER val) then
    vm ← runtimeError vm "Operand must be a number.";
    Ok (Return INTERPRET_RUNTIME_ERROR vm)
  else rest.

(** The three in-place operators: [AS_NUMBER( *val) *= -1], [++] and [--]
    through the pointer handed out by [peekStackReference]. *)
Definition in_place (f : float -> float) (vm : VM) : Outcome Step :=
  let val := peekStackReference (stack vm) 0 in
  v ← load (data (stack vm)) val;
  THROW_IF_NAN vm v
    (n ← AS_NUMBER v;
     d ← store (data (stack vm)) val (NUMBER_VAL (f n));
     Ok (Continue (set_stack vm (set_data (stack vm) d)))).

Definition push_literal (vm : VM) (v : Value) : Outcome Step :=
  s ← pushStack (stack vm) v;
  Ok (Continue (set_stack vm s)).

Definition print_value (ret : Value) : OutEvent :=
  match ret with
  | BOOL_VAL b => OutText (if b then "true" else "false")
  | NIL_VAL => OutText "nil"
  | NUMBER_VAL n => OutDouble n
  end.

Section Engine.

(** The numbering of the opcodes is the enumeration of chunk.h, which is
    not part of the sources: [opcode_of byte] is the case label that
    [byte] matches in the switch of [run], if any. *)
Variable opcode_of : Z -> option OpCode.

(** The switch of [run], entered with [ip] already past the opcode byte. *)
Definition dispatch (instruction : Z) (vm : VM) : Outcome Step :=
  match opcode_of instruction with
  | Some OP_RET =>
      '(ret, s) ← popStack (stack vm);
      let vm := set_stack vm s in
      Ok (Return INTERPRET_OK (put_stdout vm (print_value ret)))
  | Some OP_CONSTANT =>
      index ← fetch (code (chunk vm)) (ip vm);
      constant ← fetch (constants (chunk vm)) index;
      THROW_IF_NAN vm constant
        (let vm := set_ip vm (ip vm + 1) in
         push_literal vm constant)
  | Some OP_TRUE => push_literal vm (BOOL_VAL true)
  | Some OP_FALSE => push_literal vm (BOOL_VAL false)
  | Some OP_NIL => push_literal vm NIL_VAL
  | Some OP_NEGATE => in_place (fun n => PrimFloat.mul n (-1)) vm
  | Some OP_INC => in_place (fun n => PrimFloat.add n 1) vm
  | Some OP_DEC => in_place (fun n => PrimFloat.sub n 1) vm
  | Some OP_NOT =>
      '(v, s) ← popStack (stack vm);
      s ← pushStack s (BOOL_VAL (isFalseyValue v));
      Ok (Continue (set_stack vm s))
  | Some OP_AND => BINARY_LOGIC_OP andb vm
  | Some OP_OR => BINARY_LOGIC_OP orb vm
  | Some OP_XOR => BINARY_LOGIC_OP xorb vm
  | Some OP_EQUAL => EQUALITY_OP eq_bool eq_double vm
  | Some OP_NOT_EQUAL => EQUALITY_OP ne_bool ne_double vm
  | Some OP_GREATER_EQUAL => BINARY_OP (fun a b => BOOL_VAL (gt a b)) vm
  | Some OP_GREATER => BINARY_OP (fun a b => BOOL_VAL (gt a b)) vm
  | Some OP_LESS_EQUAL => BINARY_OP (fun a b => BOOL_VAL (le a b)) vm
  | Some OP_LESS => BINARY_OP (fun a b => BOOL_VAL (lt a b)) vm
  | Some OP_ADD => BINARY_OP (fun a b => NUMBER_VAL (PrimFloat.add a b)) vm
  | Some OP_SUB => BINARY_OP (fun a b => NUMBER_VAL (PrimFloat.sub a b)) vm
  | Some OP_MULT => BINARY_OP (fun a b => NUMBER_VAL (PrimFloat.mul a b)) vm
  | Some OP_DIV => BINARY_OP (fun a b => NUMBER_VAL (PrimFloat.div a b)) vm
  | None => Ok (Continue vm)
  end.

(** One turn of the loop: read the byte under [ip], move [ip] past it,
    enter the switch. *)
Definition step (vm : VM) : Outcome Step :=
  instruction ← fetch (code (chunk vm)) (ip vm);
  dispatch instruction (set_ip vm (ip vm + 1)).

(** [reaches vm vm1]: the loop started in [vm] is in [vm1] at the start
    of some later turn. *)
Inductive reaches : VM -> VM -> Prop :=
  | reaches_here (vm : VM) : reaches vm vm
  | reaches_turn (vm vm1 vm2 : VM) :
      step vm = Ok (Continue vm1) -> reaches vm1 vm2 ->
      reaches vm vm2.

(** The loop [for (;;)] of [run], unrolled at most [fuel] times; [None]
    when the loop is still going after that many turns. *)
Fixpoint run_loop (fuel : nat) (vm : VM)
  : option (Outcome (InterpretResult * VM)) :=
  match fuel with
  | O => None
  | S fuel =>
      match step vm with
      | Ok (Continue vm) => run_loop fuel vm
      | Ok (Return r vm) => Some (Ok (r, vm))
      | AssertFail msg => Some (AssertFail msg)
      | Undefined => Some Undefined
      end
  end.

(** Every turn moves [ip] forward, so the loop leaves the code after at
    most one turn per byte: this much fuel is always enough. *)
Definition turns (vm : VM) : nat :=
  S (Z.to_nat (Z.of_nat (length (code (chunk vm))) - ip vm)).

Definition run (vm : VM) : option (Outcome (InterpretResult * VM)) :=
  run_loop (turns vm) vm.

End Engine.

(** ** A numbering for concrete programs *)

(** The concrete runs below need some numbering of the opcodes; this one
    numbers them in the order of the cases of the switch. The general
    statements hold for every numbering. *)
Definition byte_of (op : OpCode) : Z :=
  match op with
  | OP_RET => 0 | OP_CONSTANT => 1 | OP_TRUE => 2 | OP_FALSE => 3
  | OP_NIL => 4 | OP_NEGATE => 5 | OP_INC => 6 | OP_DEC => 7
  | OP_NOT => 8 | OP_AND => 9 | OP_OR => 10 | OP_XOR => 11
  | OP_EQUAL => 12 | OP_NOT_EQUAL => 13
  | OP_GREATER_EQUAL => 14 | OP_GREATER => 15
  | OP_LESS_EQUAL => 16 | OP_LESS => 17
  | OP_ADD => 18 | OP_SUB => 19 | OP_MULT => 20 | OP_DIV => 21
  end.

Definition all_opcodes : list OpCode :=
  [OP_RET; OP_CONSTANT; OP_TRUE; OP_FALSE; OP_NIL; OP_NEGATE; OP_INC; OP_DEC;
   OP_NOT; OP_AND; OP_OR; OP_XOR; OP_EQUAL; OP_NOT_EQUAL;
   OP_GREATER_EQUAL; OP_GREATER; OP_LESS_EQUAL; OP_LESS;
   OP_ADD; OP_SUB; OP_MULT; OP_DIV].

Definition in_order (byte : Z) : option OpCode :=
  if (0 <=? byte) && (byte <? 22) then all_opcodes !! Z.to_nat byte else None.

(** A chunk for [bytes] and [pool] in which the byte at offset [i] comes
    from source line [i + 1]. *)
Definition script (bytes : list Z) (pool : list Value) : Chunk :=
  {| code := bytes; constants := pool;
     lines := Z.of_nat <$> seq 1 (length bytes) |}.

(** [interpretChunk] hands [run] the machine at the first byte of the chunk,
    with nothing written yet. *)
Definition machine (c : Chunk) (s : Stack) : VM :=
  {| chunk := c; ip := 0; stack := s; stdout := []; stderr := [] |}.

(** A stack of capacity [cap] whose live slots hold [vs], bottom first; the
    slots above them hold [above], what earlier pops left behind, and the
    rest were never written. *)
Definition stack_with_above (vs : list Value) (above : list Slot) (cap : Z)
  : Stack :=
  {| data := (Some <$> vs) ++ above
             ++ replicate (Z.to_nat cap - length vs - length above)%nat None;
     count := Z.of_nat (length vs);
     capacity := cap |}.

Definition stack_of (vs : list Value) (cap : Z) : Stack :=
  stack_with_above vs [] cap.

(** ** The live part of a stack *)

(** [holds s vs]: the stack [s] has the values [vs] in its live slots, bottom
    first, in a buffer of [capacity s] slots. *)
Definition holds (s : Stack) (vs : list Value) : Prop :=
  count s = Z.of_nat (length vs) /\
  capacity s = Z.of_nat (length (data s)) /\
  take (length vs) (data s) = Some <$> vs.

(** The state that [popStack] leaves behind. *)
Definition popped (s : Stack) : Stack :=
  {| data := data s; count := count s - 1; capacity := capacity s |}.

(** The stack after an instruction that pops two values and pushes [r]. *)
Definition replaced2 (s : Stack) (r : Value) : Stack :=
  {| data := <[Z.to_nat (count s - 2) := Some r]> (data s);
     count := count s - 1;
     capacity := capacity s |}.

(** The stack after an in-place update of its top slot. *)
Definition top_set (s : Stack) (r : Value) : Stack :=
  set_data s (<[Z.to_nat (count s - 1) := Some r]> (data s)).

(** The machine that [runtimeError] leaves behind when it reports [msg] for
    source line [line]. *)
Definition reported (vm : VM) (msg : string) (line : Z) : VM :=
  {| chunk := chunk vm; ip := ip vm; stack := resetStack (stack vm);
     stdout := stdout vm;
     stderr := stderr vm ++ [ErrMessage msg; ErrLine line] |}.

(** The three shapes of a turn entered in state [vm]: it goes on with the
    channels untouched; it returns success; or it returns the runtime error
    after one report, for the line of the byte before [ip], on a reset
    stack. *)
Inductive turn_shape (vm : VM) : Step -> Prop :=
  | turn_continue (vm' : VM) :
      chunk vm' = chunk vm -> ip vm <= ip vm' ->
      stdout vm' = stdout vm -> stderr vm' = stderr vm ->
      turn_shape vm (Continue vm')
  | turn_ok (vm' : VM) :
      stderr vm' = stderr vm ->
      turn_shape vm (Return INTERPRET_OK vm')
  | turn_error (msg : string) (line : Z) :
      fetch (lines (chunk vm)) (ip vm - 1) = Ok line ->
      msg = "Operand must be a number."%string \/
      msg = "Operands must be numbers."%string ->
      turn_shape vm (Return INTERPRET_RUNTIME_ERROR (reported vm msg line)).

(** [ws] pushed one after the other, first element first. *)
Fixpoint push_all (s : Stack) (ws : list Value) : Outcome Stack :=
  match ws with
  | [] => Ok s
  | w :: ws => s ← pushStack s w; push_all s ws
  end.

(** [n] pops; the values come in the order in which they were popped. *)
Fixpoint pop_n (n : nat) (s : Stack) : Outcome (list Value * Stack) :=
  match n with
  | O => Ok ([], s)
  | S n =>
      '(v, s) ← popStack s;
      '(vs, s) ← pop_n n s;
      Ok (v :: vs, s)
  end.

(** The arithmetic opcodes as the specification tabulates them: the result
    for the operand [a] pushed first and [b] pushed second. *)
Definition arithmetic (op : OpCode) (a b : float) : option float :=
  match op with
  | OP_ADD => Some (PrimFloat.add a b)
  | OP_SUB => Some (PrimFloat.sub a b)
  | OP_MULT => Some (PrimFloat.mul a b)
  | OP_DIV => Some (PrimFloat.div a b)
  | _ => None
  end.

(** The in-place opcodes as the specification tabulates them: arithmetic
    negation, value plus one, value minus one. *)
Definition unary (op : OpCode) (n : float) : option float :=
  match op with
  | OP_NEGATE => Some (PrimFloat.opp n)
  | OP_INC => Some (PrimFloat.add n 1)
  | OP_DEC => Some (PrimFloat.sub n 1)
  | _ => None
  end.

(** ** Classes of opcodes, by the code of their case *)

(** The cases that expand [BINARY_OP]. *)
Definition numeric_binary (op : OpCode) : bool :=
  match op with
  | OP_GREATER_EQUAL | OP_GREATER | OP_LESS_EQUAL | OP_LESS
  | OP_ADD | OP_SUB | OP_MULT | OP_DIV => true
  | _ => false
  end.

(** The cases that start with two [popStack] calls: [BINARY_LOGIC_OP] and
    [EQUALITY_OP]. *)
Definition pops_two (op : OpCode) : bool :=
  match op with
  | OP_AND | OP_OR | OP_XOR | OP_EQUAL | OP_NOT_EQUAL => true
  | _ => false
  end.

(** The cases whose first access to the stack is [popStack] or [peekStack],
    the two functions that assert a non-empty stack. *)
Definition asserts_non_empty (op : OpCode) : bool :=
  match op with
  | OP_RET | OP_NOT => true
  | _ => numeric_binary op || pops_two op
  end.

(** The three cases that push a literal. *)
Definition literal (op : OpCode) : option Value :=
  match op with
  | OP_TRUE => Some (BOOL_VAL true)
  | OP_FALSE => Some (BOOL_VAL false)
  | OP_NIL => Some NIL_VAL
  | _ => None
  end.

(** The operator that each case of [BINARY_LOGIC_OP] passes. *)
Definition logic (op : OpCode) : option (bool -> bool -> bool) :=
  match op with
  | OP_AND => Some andb
  | OP_OR => Some orb
  | OP_XOR => Some xorb
  | _ => None
  end.

(** A stack as [initStack] and the stack functions keep it: a buffer of
    [capacity] slots, at least one, whose first [count] slots were written. *)
Definition well_formed (s : Stack) : Prop :=
  0 < capacity s /\ exists vs : list Value, holds s vs.

(** [stack_moves s s']: [s'] comes from [s] by calls that succeeded: pushes,
    pops, and writes through the pointer to the top slot after it was read. *)
Inductive stack_moves : Stack -> Stack -> Prop :=
  | moves_none (s : Stack) : stack_moves s s
  | moves_push (s s1 s2 : Stack) (v : Value) :
      pushStack s v = Ok s1 -> stack_moves s1 s2 -> stack_moves s s2
  | moves_pop (s s1 s2 : Stack) (v : Value) :
      popStack s = Ok (v, s1) -> stack_moves s1 s2 -> stack_moves s s2
  | moves_store (s s2 : Stack) (d : list Slot) (v r : Value) :
      load (data s) (peekStackReference s 0) = Ok v ->
      store (data s) (peekStackReference s 0) r = Ok d ->
      stack_moves (set_data s d) s2 -> stack_moves s s2.

(** What the macros of [run] and the cases written with them, entered in
    [vm], can hand back: the loop goes on with a stack reached by stack
    calls, or the run returns the runtime error after one report. *)
Inductive macro_effect (vm : VM) : Step -> Prop :=
  | macro_continue (s' : Stack) :
      stack_moves (stack vm) s' ->
      macro_effect vm (Continue (set_stack vm s'))
  | macro_error (msg : string) (line : Z) :
      fetch (lines (chunk vm)) (ip vm - 1) = Ok line ->
      macro_effect vm (Return INTERPRET_RUNTIME_ERROR (reported vm msg line)).

(** What a case of the switch, entered in [vm], can hand back: the loop goes
    on at most one byte further with a stack reached by stack calls; or the
    run returns success after one pop and one print; or it returns the
    runtime error after one report. *)
Inductive turn_effect (vm : VM) : Step -> Prop :=
  | effect_continue (ip' : Z) (s' : Stack) :
      ip vm <= ip' <= ip vm + 1 -> stack_moves (stack vm) s' ->
      turn_effect vm (Continue (set_stack (set_ip vm ip') s'))
  | effect_return (v : Value) (s' : Stack) :
      popStack (stack vm) = Ok (v, s') ->
      turn_effect vm
        (Return INTERPRET_OK (put_stdout (set_stack vm s') (print_value v)))
  | effect_error (msg : string) (line : Z) :
      fetch (lines (chunk vm)) (ip vm - 1) = Ok line ->
      turn_effect vm (Return INTERPRET_RUNTIME_ERROR (reported vm msg line)).

(** The machine that a turn hands back, whichever way it ends. *)
Definition machine_of (st : Step) : VM :=
  match st with
  | Continue vm => vm
  | Return _ vm => vm
  end.

(** ** The rest of vm.c *)

Definition initVM (vm : VM) (STACK_DEF_CAP : Z) : VM :=
  set_stack vm (initStack STACK_DEF_CAP).

(** [free] releases the buffer and the pointer is set to [NULL]: no slot is
    left to access. The count and the capacity are not written. *)
Definition freeVM (vm : VM) : VM :=
  set_stack vm (set_data (stack vm) []).

(** What [showStack] writes: a line ["[ x ]"] per slot, where [x] is the
    text that Return prints for the value, and an empty line at the end. *)
Inductive TraceLine : Type :=
  | TraceSlot (e : OutEvent)
  | TraceEnd.

(** The loop of [showStack] with [n] slots to go before the pointer equals
    [data + count]. *)
Fixpoint show_slots (buf : list Slot) (slot : Z) (n : nat)
  : Outcome (list TraceLine) :=
  match n with
  | O => Ok []
  | S n =>
      v ← load buf slot;
      rest ← show_slots buf (slot + 1) n;
      Ok (TraceSlot (print_value v) :: rest)
  end.

(** The pointer starts at [data] and is compared for equality only: below a
    count of 0 it never meets [data + count] and leaves the buffer. *)
Definition showStack (s : Stack) : Outcome (list TraceLine) :=
  if count s <? 0 then Undefined
  else
    shown ← show_slots (data s) 0 (Z.to_nat (count s));
    Ok (shown ++ [TraceEnd]).

Section Interpreter.

Variable opcode_of : Z -> option OpCode.

(** [compile] belongs to compiler.h, which is not part of the sources: it
    is taken as the chunk that it fills when it succeeds. What the front
    end may write to the channels is outside this model. *)
Variable compile : string -> option Chunk.

Definition interpretChunk (vm : VM) (source : string)
  : option (Outcome (InterpretResult * VM)) :=
  match compile source with
  | None => Some (Ok (INTERPRET_COMPILE_ERROR, vm))
  | Some c =>
      run opcode_of {| chunk := c; ip := 0; stack := stack vm;
                       stdout := stdout vm; stderr := stderr vm |}
  end.

End Interpreter.

(** The change of the count that the case of an opcode makes when the loop
    goes on, and the operand bytes that it consumes: read off the pushes and
    pops of each case. *)
Definition stack_delta (op : option OpCode) : Z :=
  match op with
  | Some (OP_CONSTANT | OP_TRUE | OP_FALSE | OP_NIL) => 1
  | Some (OP_NEGATE | OP_INC | OP_DEC | OP_NOT) => 0
  | Some _ => -1
  | None => 0
  end.

Definition operand_bytes (op : option OpCode) : Z :=
  match op with
  | Some OP_CONSTANT => 1
  | _ => 0
  end.


(** * Properties *)

(** ** Multiplying a double by -1 negates it *)

Lemma digits2_pos_shift (p : positive) :
  Z.pos (digits2_pos (Pos.iter xO p 52)) = Z.pos (digits2_pos p) + 52.
Proof. cbn. lia. Qed.

Lemma mul_pow2_52 (p : positive) :
  (p * 4503599627370496)%positive = Pos.iter xO p 52.
Proof. rewrite Pos.mul_comm. reflexivity. Qed.

Lemma shr_fexp_shifted (m : positive) (e : Z) :
  fexp prec emax (Z.pos (digits2_pos m) + e) = e ->
  shr_fexp prec emax (Z.pos (Pos.iter xO m 52)) (e + -52) loc_Exact
  = ({| shr_m := Z.pos m; shr_r := false; shr_s := false |}, e).
Proof.
  intros Hc.
  change (shr_fexp prec emax (Z.pos (Pos.iter xO m 52)) (e + -52) loc_Exact)
    with (shr {| shr_m := Z.pos (Pos.iter xO m 52);
                 shr_r := false; shr_s := false |} (e + -52)
              (fexp prec emax
                 (Z.pos (digits2_pos (Pos.iter xO m 52)) + (e + -52))
               - (e + -52))).
  rewrite digits2_pos_shift.
  replace (Z.pos (digits2_pos m) + 52 + (e + -52))
    with (Z.pos (digits2_pos m) + e) by lia.
  rewrite Hc. replace (e - (e + -52)) with 52 by lia.
  cbn [shr iter_pos shr_1 orb Pos.iter]. f_equal. lia.
Qed.

Lemma shr_fexp_canonical (m : positive) (e : Z) :
  fexp prec emax (Z.pos (digits2_pos m) + e) = e ->
  shr_fexp prec emax (Z.pos m) e loc_Exact
  = ({| shr_m := Z.pos m; shr_r := false; shr_s := false |}, e).
Proof.
  intros Hc.
  change (shr_fexp prec emax (Z.pos m) e loc_Exact)
    with (shr {| shr_m := Z.pos m; shr_r := false; shr_s := false |} e
              (fexp prec emax (Z.pos (digits2_pos m) + e) - e)).
  rewrite Hc, Z.sub_diag. reflexivity.
Qed.

(** Rounding a canonical mantissa shifted left by 52 bits, with the exponent
    lowered by 52, gives the mantissa back: nothing is lost. *)
Lemma binary_round_aux_shifted (s : bool) (m : positive) (e : Z) :
  bounded prec emax m e = true ->
  binary_round_aux prec emax s (Z.pos (Pos.iter xO m 52)) (e + -52) loc_Exact
  = S754_finite s m e.
Proof.
  intros Hb. unfold bounded, canonical_mantissa in Hb.
  apply andb_prop in Hb. destruct Hb as [Hc He].
  apply Z.eqb_eq in Hc.
  assert (Hc' : fexp prec emax (Z.pos (digits2_pos m) + e) = e) by exact Hc.
  assert (He' : (e <=? emax - prec) = true) by exact He.
  unfold binary_round_aux. rewrite (shr_fexp_shifted m e Hc').
  cbn [round_nearest_even shr_m loc_of_shr_record].
  rewrite (shr_fexp_canonical m e Hc'). cbn [shr_m].
  change (IntDef.Z.leb e (IntDef.Z.sub emax prec)) with (e <=? emax - prec).
  rewrite He'. reflexivity.
Qed.

Lemma mul_minus_one (x : float) : PrimFloat.mul x (-1) = PrimFloat.opp x.
Proof.
  apply Prim2SF_inj. rewrite mul_spec, opp_spec.
  pose proof (Prim2SF_valid x) as Hv.
  change (Prim2SF (-1)) with (S754_finite true 4503599627370496 (-52)).
  destruct (Prim2SF x) as [s|s| |s m e]; simpl in *.
  - rewrite xorb_true_r. reflexivity.
  - rewrite xorb_true_r. reflexivity.
  - reflexivity.
  - unfold SF64mul, SFmul.
    rewrite mul_pow2_52, binary_round_aux_shifted by exact Hv.
    rewrite xorb_true_r. reflexivity.
Qed.

(** ** The stack *)

Lemma holds_split (s : Stack) (vs : list Value) :
  holds s vs ->
  data s = (Some <$> vs) ++ drop (length vs) (data s) /\
  (length vs <= length (data s))%nat.
Proof.
  intros (_ & _ & Ht). split.
  - rewrite <- Ht. symmetry. apply take_drop.
  - apply (f_equal length) in Ht.
    rewrite length_take, length_fmap in Ht. lia.
Qed.

Lemma in_range (n i : nat) :
  (i < n)%nat -> (0 <=? Z.of_nat i) && (Z.of_nat i <? Z.of_nat n) = true.
Proof.
  intros Hlt. apply andb_true_intro.
  split; [apply Z.leb_le | apply Z.ltb_lt]; lia.
Qed.

Lemma holds_lookup (s : Stack) (vs : list Value) (i : nat) (v : Value) :
  holds s vs -> vs !! i = Some v -> data s !! i = Some (Some v).
Proof.
  intros H Hi. destruct (holds_split _ _ H) as [-> _].
  apply lookup_app_l_Some. rewrite list_lookup_fmap, Hi. reflexivity.
Qed.

Lemma load_holds (s : Stack) (vs : list Value) (i : nat) (v : Value) :
  holds s vs -> vs !! i = Some v -> load (data s) (Z.of_nat i) = Ok v.
Proof.
  intros H Hi. pose proof (holds_lookup _ _ _ _ H Hi) as Hd.
  pose proof (lookup_lt_Some _ _ _ Hd) as Hlt.
  unfold load. rewrite in_range, Nat2Z.id, Hd by exact Hlt. reflexivity.
Qed.

Lemma store_in_range (buf : list Slot) (i : nat) (v : Value) :
  (i < length buf)%nat ->
  store buf (Z.of_nat i) v = Ok (<[i := Some v]> buf).
Proof.
  intros Hlt. unfold store. rewrite in_range, Nat2Z.id by exact Hlt.
  reflexivity.
Qed.

Lemma take_insert_at (buf : list Slot) (n : nat) (x : Slot) :
  (n < length buf)%nat -> take (S n) (<[n := x]> buf) = take n buf ++ [x].
Proof.
  intros Hlt. rewrite (take_S_r _ _ x).
  - f_equal. apply list_eq. intros j.
    destruct (decide (j < n)%nat) as [Hj|Hj].
    + rewrite !lookup_take_lt by lia. apply list_lookup_insert_ne. lia.
    + rewrite !lookup_ge_None_2; [reflexivity| |];
        rewrite length_take, ?length_insert; lia.
  - apply list_lookup_insert_eq. exact Hlt.
Qed.

(** Popping a stack that holds [vs ++ [v]] returns [v], leaves [vs], and
    touches neither the buffer nor the capacity. *)
Lemma popStack_holds (s : Stack) (vs : list Value) (v : Value) :
  holds s (vs ++ [v]) ->
  popStack s = Ok (v, popped s) /\ holds (popped s) vs.
Proof.
  intros H. pose proof H as (Hc & Hcap & Ht).
  rewrite length_app in Hc, Ht. simpl in Hc, Ht.
  assert (Hl : load (data s) (Z.of_nat (length vs)) = Ok v).
  { apply (load_holds s (vs ++ [v])); [exact H|].
    rewrite lookup_app_r by lia. rewrite Nat.sub_diag. reflexivity. }
  split.
  - unfold popStack, isStackEmpty.
    destruct (count s =? 0) eqn:E; [lia|]. simpl.
    replace (Z.of_nat (length vs)) with (count s - 1) in Hl by lia.
    rewrite Hl. reflexivity.
  - unfold holds, popped. simpl. repeat split; [lia|exact Hcap|].
    apply (f_equal (take (length vs))) in Ht.
    rewrite take_take, fmap_app, take_app_length' in Ht
      by (rewrite length_fmap; reflexivity).
    rewrite <- Ht. f_equal. lia.
Qed.

(** Pushing onto a stack with room writes the slot at [count]. *)
Lemma pushStack_room (s : Stack) (vs : list Value) (v : Value) :
  holds s vs -> count s < capacity s ->
  let s' := {| data := <[length vs := Some v]> (data s);
               count := count s + 1; capacity := capacity s |} in
  pushStack s v = Ok s' /\ holds s' (vs ++ [v]).
Proof.
  intros (Hc & Hcap & Ht) Hroom. simpl.
  assert (Hlt : (length vs < length (data s))%nat) by lia.
  split.
  - unfold pushStack, isStackFull.
    destruct (count s =? capacity s) eqn:E; [lia|].
    rewrite Hc, store_in_range by exact Hlt. reflexivity.
  - unfold holds. simpl. rewrite length_app, length_insert. simpl.
    repeat split; [lia|exact Hcap|].
    rewrite Nat.add_1_r, take_insert_at, Ht, fmap_app by exact Hlt.
    reflexivity.
Qed.

Lemma GROW_ARRAY_prefix (buf : list Slot) (n : Z) :
  Z.of_nat (length buf) <= n ->
  GROW_ARRAY buf n = buf ++ replicate (Z.to_nat n - length buf) None.
Proof.
  intros Hn. unfold GROW_ARRAY. rewrite take_ge by lia. reflexivity.
Qed.

(** Pushing onto a full stack of positive capacity doubles the buffer,
    keeps every slot it had, and writes the slot at [count]. *)
Lemma pushStack_full (s : Stack) (vs : list Value) (v : Value) :
  holds s vs -> count s = capacity s -> 0 < capacity s ->
  let s' := {| data := <[length vs := Some v]>
                         (data s ++ replicate (length (data s)) None);
               count := count s + 1; capacity := capacity s * 2 |} in
  pushStack s v = Ok s' /\ holds s' (vs ++ [v]).
Proof.
  intros (Hc & Hcap & Ht) Hfull Hpos. simpl.
  assert (Hlen : length vs = length (data s)) by lia.
  assert (Hg : GROW_ARRAY (data s) (capacity s * 2)
               = data s ++ replicate (length (data s)) None).
  { rewrite GROW_ARRAY_prefix by lia. do 2 f_equal. lia. }
  assert (Hlt : (length vs < length (data s ++ replicate (length (data s)) None))%nat).
  { rewrite length_app, length_replicate. lia. }
  split.
  - unfold pushStack, isStackFull.
    destruct (count s =? capacity s) eqn:E; [|lia]. simpl.
    rewrite Hg, Hc, store_in_range by exact Hlt. reflexivity.
  - unfold holds. simpl.
    rewrite length_insert, !length_app, length_replicate. simpl.
    repeat split; [lia|lia|].
    rewrite Nat.add_1_r, take_insert_at by exact Hlt.
    rewrite take_app_le by lia. rewrite Ht, fmap_app. reflexivity.
Qed.

(** Either way a push on a stack of positive capacity succeeds. *)
Lemma pushStack_holds (s : Stack) (vs : list Value) (v : Value) :
  holds s vs -> 0 < capacity s ->
  exists s', pushStack s v = Ok s' /\ holds s' (vs ++ [v]) /\
    capacity s' = (if isStackFull s then capacity s * 2 else capacity s) /\
    capacity s <= capacity s'.
Proof.
  intros H Hpos. unfold isStackFull.
  destruct (count s =? capacity s) eqn:E.
  - destruct (pushStack_full s vs v H) as [Hp Hh]; [lia|exact Hpos|].
    eexists. split; [exact Hp|]. split; [exact Hh|]. simpl. lia.
  - pose proof (holds_split _ _ H) as [_ Hle]. pose proof H as (Hc & Hcap & _).
    destruct (pushStack_room s vs v H) as [Hp Hh]; [lia|].
    eexists. split; [exact Hp|]. split; [exact Hh|]. simpl. lia.
Qed.

Lemma push_all_holds (ws : list Value) :
  forall (s : Stack) (vs : list Value),
  holds s vs -> 0 < capacity s ->
  exists s1, push_all s ws = Ok s1 /\ holds s1 (vs ++ ws) /\
    capacity s <= capacity s1.
Proof.
  induction ws as [|w ws IH]; intros s vs H Hpos; simpl.
  - exists s. rewrite app_nil_r. split_and!; [reflexivity|exact H|lia].
  - destruct (pushStack_holds s vs w H Hpos) as (s' & Hp & Hh & _ & Hle).
    destruct (IH s' (vs ++ [w]) Hh) as (s1 & Hall & Hh1 & Hle1); [lia|].
    exists s1. rewrite Hp. simpl. rewrite <- app_assoc in Hh1.
    split_and!; [exact Hall|exact Hh1|lia].
Qed.

Lemma pop_n_holds (ws : list Value) :
  forall (s : Stack) (vs : list Value),
  holds s (vs ++ ws) ->
  exists s2, pop_n (length ws) s = Ok (rev ws, s2) /\ holds s2 vs /\
    capacity s2 = capacity s /\ data s2 = data s.
Proof.
  induction ws as [|w ws IH] using rev_ind; intros s vs H; simpl.
  - exists s. rewrite app_nil_r in H. split_and!; [reflexivity|exact H|reflexivity|reflexivity].
  - rewrite app_assoc in H.
    destruct (popStack_holds s (vs ++ ws) w H) as [Hp Hh].
    destruct (IH (popped s) vs Hh) as (s2 & Hn & Hh2 & Hcap & Hd).
    exists s2. rewrite length_app, Nat.add_1_r, rev_unit. simpl.
    rewrite Hp. simpl. rewrite Hn. simpl.
    split_and!; [reflexivity|exact Hh2|exact Hcap|exact Hd].
Qed.

Lemma holds_count_pos (s : Stack) (vs : list Value) (v : Value) :
  holds s (vs ++ [v]) -> isStackEmpty s = false.
Proof.
  intros (Hc & _). rewrite length_app in Hc. simpl in Hc.
  unfold isStackEmpty. apply Z.eqb_neq. lia.
Qed.

Lemma peekStack_top (s : Stack) (vs : list Value) (v : Value) :
  holds s (vs ++ [v]) -> peekStack s 0 = Ok v.
Proof.
  intros H. unfold peekStack. rewrite (holds_count_pos s vs v H).
  pose proof H as (Hc & _). rewrite length_app in Hc. simpl in Hc.
  replace (count s - 1 - 0) with (Z.of_nat (length vs)) by lia.
  apply (load_holds s (vs ++ [v])); [exact H|].
  rewrite lookup_app_r by lia. rewrite Nat.sub_diag. reflexivity.
Qed.

Lemma peekStack_below (s : Stack) (vs : list Value) (u v : Value) :
  holds s (vs ++ [u; v]) -> peekStack s 1 = Ok u.
Proof.
  intros H. unfold peekStack.
  rewrite (holds_count_pos s (vs ++ [u]) v) by (rewrite <- app_assoc; exact H).
  pose proof H as (Hc & _). rewrite length_app in Hc. simpl in Hc.
  replace (count s - 1 - 1) with (Z.of_nat (length vs)) by lia.
  apply (load_holds s (vs ++ [u; v])); [exact H|].
  rewrite lookup_app_r by lia. rewrite Nat.sub_diag. reflexivity.
Qed.

(** Two pops take the two topmost values, the top one first. *)
Lemma popStack_twice (s : Stack) (vs : list Value) (u v : Value) :
  holds s (vs ++ [u; v]) ->
  popStack s = Ok (v, popped s) /\
  popStack (popped s) = Ok (u, popped (popped s)) /\
  holds (popped (popped s)) vs /\
  count (popped (popped s)) < capacity s.
Proof.
  intros H.
  assert (H1 : holds s ((vs ++ [u]) ++ [v])) by (rewrite <- app_assoc; exact H).
  destruct (popStack_holds _ _ _ H1) as [Hp1 Hh1].
  destruct (popStack_holds _ _ _ Hh1) as [Hp2 Hh2].
  split_and!; [exact Hp1|exact Hp2|exact Hh2|].
  destruct (holds_split _ _ H) as [_ Hle]. destruct H as (Hc & Hcap & _).
  rewrite length_app in Hc, Hle. simpl in *. lia.
Qed.

Lemma pop2_push (s : Stack) (vs : list Value) (u v r : Value) :
  holds s (vs ++ [u; v]) ->
  pushStack (popped (popped s)) r = Ok (replaced2 s r) /\
  holds (replaced2 s r) (vs ++ [r]).
Proof.
  intros H. destruct (popStack_twice s vs u v H) as (_ & _ & Hh & Hroom).
  destruct (pushStack_room _ vs r Hh Hroom) as [Hp Hh'].
  assert (Heq : replaced2 s r
                = {| data := <[length vs := Some r]> (data (popped (popped s)));
                     count := count (popped (popped s)) + 1;
                     capacity := capacity (popped (popped s)) |}).
  { destruct H as (Hc & _). rewrite length_app in Hc. simpl in Hc.
    unfold replaced2. simpl. f_equal; [f_equal|]; lia. }
  rewrite Heq. split; [exact Hp|exact Hh'].
Qed.

Lemma BINARY_OP_numbers (RESULT_VAL : float -> float -> Value) (vm : VM)
    (vs : list Value) (a b : float) :
  holds (stack vm) (vs ++ [NUMBER_VAL a; NUMBER_VAL b]) ->
  BINARY_OP RESULT_VAL vm
    = Ok (Continue (set_stack vm (replaced2 (stack vm) (RESULT_VAL a b)))) /\
  holds (replaced2 (stack vm) (RESULT_VAL a b)) (vs ++ [RESULT_VAL a b]).
Proof.
  intros H.
  destruct (popStack_twice _ _ _ _ H) as (Hp1 & Hp2 & _ & _).
  destruct (pop2_push _ _ _ _ (RESULT_VAL a b) H) as [Hpush Hh].
  split; [|exact Hh].
  unfold BINARY_OP.
  rewrite (peekStack_top _ (vs ++ [NUMBER_VAL a]) (NUMBER_VAL b))
    by (rewrite <- app_assoc; exact H).
  simpl. rewrite (peekStack_below _ _ _ _ H). simpl.
  rewrite Hp1. simpl. rewrite Hp2. simpl. rewrite Hpush. reflexivity.
Qed.

Lemma EQUALITY_OP_values (op_bool : bool -> bool -> bool)
    (op_double : float -> float -> bool) (vm : VM)
    (vs : list Value) (a b : Value) :
  holds (stack vm) (vs ++ [a; b]) ->
  let r := match a, b with
           | NIL_VAL, NIL_VAL => true
           | BOOL_VAL x, BOOL_VAL y => op_bool x y
           | NUMBER_VAL x, NUMBER_VAL y => op_double x y
           | _, _ => false
           end in
  EQUALITY_OP op_bool op_double vm
    = Ok (Continue (set_stack vm (replaced2 (stack vm) (BOOL_VAL r)))) /\
  holds (replaced2 (stack vm) (BOOL_VAL r)) (vs ++ [BOOL_VAL r]).
Proof.
  intros H r.
  destruct (popStack_twice _ _ _ _ H) as (Hp1 & Hp2 & _ & _).
  destruct (pop2_push _ _ _ _ (BOOL_VAL r) H) as [Hpush Hh].
  split; [|exact Hh].
  unfold EQUALITY_OP. rewrite Hp1. simpl. rewrite Hp2. simpl.
  destruct a, b; simpl; subst r; rewrite Hpush; reflexivity.
Qed.

Lemma load_top (s : Stack) (vs : list Value) (v : Value) :
  holds s (vs ++ [v]) -> load (data s) (peekStackReference s 0) = Ok v.
Proof.
  intros H. pose proof (peekStack_top s vs v H) as Hp.
  unfold peekStack in Hp. rewrite (holds_count_pos s vs v H) in Hp. exact Hp.
Qed.

Lemma store_top (s : Stack) (vs : list Value) (v r : Value) :
  holds s (vs ++ [v]) ->
  store (data s) (peekStackReference s 0) r = Ok (data (top_set s r)) /\
  holds (top_set s r) (vs ++ [r]).
Proof.
  intros H. destruct (holds_split _ _ H) as [_ Hle].
  destruct (popStack_holds _ _ _ H) as [_ (_ & _ & Ht)].
  destruct H as (Hc & Hcap & _).
  rewrite length_app in Hc, Hle. simpl in Hc, Hle, Ht.
  assert (Hi : peekStackReference s 0 = Z.of_nat (length vs))
    by (unfold peekStackReference; lia).
  assert (Hn : Z.to_nat (count s - 1) = length vs) by lia.
  split.
  - rewrite Hi, store_in_range by lia. unfold top_set. simpl.
    rewrite Hn. reflexivity.
  - unfold holds, top_set. simpl.
    rewrite Hn, length_insert, length_app. simpl.
    split_and!; [lia|exact Hcap|].
    rewrite Nat.add_1_r, take_insert_at, Ht, fmap_app by lia. reflexivity.
Qed.

Lemma top_set_frame (s : Stack) (r : Value) :
  count (top_set s r) = count s /\
  capacity (top_set s r) = capacity s /\
  forall i : nat,
    i <> Z.to_nat (count s - 1) -> data (top_set s r) !! i = data s !! i.
Proof.
  split_and!; [reflexivity..|].
  intros i Hi. unfold top_set. simpl. apply list_lookup_insert_ne. congruence.
Qed.

Lemma in_place_number (f : float -> float) (vm : VM)
    (vs : list Value) (n : float) :
  holds (stack vm) (vs ++ [NUMBER_VAL n]) ->
  in_place f vm
    = Ok (Continue (set_stack vm (top_set (stack vm) (NUMBER_VAL (f n))))) /\
  holds (top_set (stack vm) (NUMBER_VAL (f n))) (vs ++ [NUMBER_VAL (f n)]).
Proof.
  intros H.
  destruct (store_top _ _ _ (NUMBER_VAL (f n)) H) as [Hs Hh].
  split; [|exact Hh].
  unfold in_place. rewrite (load_top _ _ _ H). simpl.
  rewrite Hs. reflexivity.
Qed.

Lemma runtimeError_reported (vm : VM) (msg : string) (line : Z) :
  fetch (lines (chunk vm)) (ip vm - 1) = Ok line ->
  runtimeError vm msg = Ok (reported vm msg line).
Proof.
  intros Hl. unfold runtimeError. simpl. rewrite Hl. simpl.
  unfold reported, set_stack, put_stderr. simpl.
  rewrite <- app_assoc. reflexivity.
Qed.

Lemma in_place_not_number (f : float -> float) (vm : VM)
    (vs : list Value) (v : Value) (line : Z) :
  holds (stack vm) (vs ++ [v]) -> IS_NUMBER v = false ->
  fetch (lines (chunk vm)) (ip vm - 1) = Ok line ->
  in_place f vm
    = Ok (Return INTERPRET_RUNTIME_ERROR
            (reported vm "Operand must be a number." line)).
Proof.
  intros H Hv Hl. unfold in_place. rewrite (load_top _ _ _ H). simpl.
  unfold THROW_IF_NAN. rewrite Hv. simpl.
  rewrite (runtimeError_reported _ _ line Hl). reflexivity.
Qed.

(** ** What a turn of the loop can do to the machine *)

Lemma bind_Ok_inv {A B : Type} (c : Outcome A) (k : A -> Outcome B) (b : B) :
  c ≫= k = Ok b -> exists a, c = Ok a /\ k a = Ok b.
Proof. destruct c as [a| |]; simpl; intros H; [eauto|discriminate..]. Qed.

Ltac invert_outcome :=
  repeat match goal with
  | H : _ ≫= _ = Ok _ |- _ =>
      apply bind_Ok_inv in H; destruct H as (? & ? & H)
  | H : (let '(_, _) := ?p in _) = Ok _ |- _ => destruct p
  | H : (if ?b then _ else _) = Ok _ |- _ => destruct b eqn:?
  | H : match ?x with _ => _ end = Ok _ |- _ => destruct x eqn:?
  | H : Ok _ = Ok _ |- _ => injection H as H; subst
  | H : AssertFail _ = Ok _ |- _ => discriminate H
  | H : Undefined = Ok _ |- _ => discriminate H
  end.

Lemma runtimeError_inv (vm vm' : VM) (msg : string) :
  runtimeError vm msg = Ok vm' ->
  exists line, fetch (lines (chunk vm)) (ip vm - 1) = Ok line /\
    vm' = reported vm msg line.
Proof.
  intros H. unfold runtimeError in H. simpl in H.
  apply bind_Ok_inv in H. destruct H as (line & Hl & H).
  exists line. split; [exact Hl|]. injection H as <-.
  unfold reported, set_stack, put_stderr. simpl.
  rewrite <- app_assoc. reflexivity.
Qed.

Lemma set_stack_shape (vm : VM) (s : Stack) :
  turn_shape vm (Continue (set_stack vm s)).
Proof. constructor; simpl; [reflexivity|lia|reflexivity..]. Qed.

Lemma THROW_IF_NAN_shape (vm : VM) (val : Value) (rest : Outcome Step)
    (st : Step) :
  (rest = Ok st -> turn_shape vm st) ->
  THROW_IF_NAN vm val rest = Ok st -> turn_shape vm st.
Proof.
  intros Hrest H. unfold THROW_IF_NAN in H.
  destruct (negb (IS_NUMBER val)); [|exact (Hrest H)].
  apply bind_Ok_inv in H. destruct H as (vm' & He & H).
  apply runtimeError_inv in He. destruct He as (line & Hl & ->).
  injection H as <-. apply turn_error; [exact Hl|left; reflexivity].
Qed.

Lemma BINARY_OP_shape (R : float -> float -> Value) (vm : VM) (st : Step) :
  BINARY_OP R vm = Ok st -> turn_shape vm st.
Proof.
  intros H. unfold BINARY_OP in H.
  apply bind_Ok_inv in H. destruct H as (top & _ & H).
  apply bind_Ok_inv in H. destruct H as ([|] & _ & H).
  - apply bind_Ok_inv in H. destruct H as (vm' & He & H).
    apply runtimeError_inv in He. destruct He as (line & Hl & ->).
    injection H as <-. apply turn_error; [exact Hl|right; reflexivity].
  - invert_outcome. apply set_stack_shape.
Qed.

Lemma BINARY_LOGIC_OP_shape (op : bool -> bool -> bool) (vm : VM) (st : Step) :
  BINARY_LOGIC_OP op vm = Ok st -> turn_shape vm st.
Proof.
  intros H. unfold BINARY_LOGIC_OP in H. invert_outcome.
  apply set_stack_shape.
Qed.

Lemma EQUALITY_OP_shape (ob : bool -> bool -> bool)
    (od : float -> float -> bool) (vm : VM) (st : Step) :
  EQUALITY_OP ob od vm = Ok st -> turn_shape vm st.
Proof.
  intros H. unfold EQUALITY_OP in H.
  apply bind_Ok_inv in H. destruct H as ([b s] & _ & H).
  apply bind_Ok_inv in H. destruct H as ([a s'] & _ & H).
  apply bind_Ok_inv in H. destruct H as (s'' & _ & H).
  injection H as <-. apply set_stack_shape.
Qed.

Lemma in_place_shape (f : float -> float) (vm : VM) (st : Step) :
  in_place f vm = Ok st -> turn_shape vm st.
Proof.
  intros H. unfold in_place in H.
  apply bind_Ok_inv in H. destruct H as (v & _ & H).
  revert H. apply THROW_IF_NAN_shape. intros H.
  invert_outcome. apply set_stack_shape.
Qed.

Lemma push_literal_shape (vm : VM) (v : Value) (st : Step) :
  push_literal vm v = Ok st -> turn_shape vm st.
Proof.
  intros H. unfold push_literal in H. invert_outcome. apply set_stack_shape.
Qed.

Section Properties.

Variable opcode_of : Z -> option OpCode.

Lemma dispatch_shape (byte : Z) (vm : VM) (st : Step) :
  dispatch opcode_of byte vm = Ok st -> turn_shape vm st.
Proof.
  unfold dispatch.
  destruct (opcode_of byte) as [[]|];
    eauto using BINARY_OP_shape, BINARY_LOGIC_OP_shape, EQUALITY_OP_shape,
                in_place_shape, push_literal_shape.
  - intros H. invert_outcome. apply turn_ok. reflexivity.
  - intros H.
    apply bind_Ok_inv in H. destruct H as (index & _ & H).
    apply bind_Ok_inv in H. destruct H as (constant & _ & H).
    revert H. apply THROW_IF_NAN_shape. intros H.
    unfold push_literal in H. invert_outcome.
    constructor; simpl; [reflexivity|lia|reflexivity..].
  - intros H. invert_outcome. apply set_stack_shape.
  - intros H. injection H as <-.
    constructor; [reflexivity|lia|reflexivity..].
Qed.

Lemma step_dispatch (vm : VM) (byte : Z) :
  fetch (code (chunk vm)) (ip vm) = Ok byte ->
  step opcode_of vm = dispatch opcode_of byte (set_ip vm (ip vm + 1)).
Proof. intros Hf. unfold step. rewrite Hf. reflexivity. Qed.

Lemma step_inv (vm : VM) (st : Step) :
  step opcode_of vm = Ok st ->
  exists byte, fetch (code (chunk vm)) (ip vm) = Ok byte /\
    dispatch opcode_of byte (set_ip vm (ip vm + 1)) = Ok st.
Proof. intros H. apply bind_Ok_inv in H. exact H. Qed.

Lemma fetch_in_range {A : Type} (arr : list A) (i : Z) (a : A) :
  fetch arr i = Ok a -> 0 <= i < Z.of_nat (length arr).
Proof.
  unfold fetch. destruct (0 <=? i) eqn:E1; [|discriminate].
  destruct (i <? Z.of_nat (length arr)) eqn:E2; [|discriminate].
  intros _. apply Z.leb_le in E1. apply Z.ltb_lt in E2. lia.
Qed.

Lemma step_continue (vm vm1 : VM) :
  step opcode_of vm = Ok (Continue vm1) ->
  chunk vm1 = chunk vm /\ ip vm < ip vm1 /\
  0 <= ip vm < Z.of_nat (length (code (chunk vm))) /\
  stdout vm1 = stdout vm /\ stderr vm1 = stderr vm.
Proof.
  intros H. apply step_inv in H. destruct H as (byte & Hf & Hd).
  apply fetch_in_range in Hf. apply dispatch_shape in Hd.
  inversion Hd; subst. simpl in *. split_and!; try assumption; lia.
Qed.

Lemma reaches_frame (vm vm1 : VM) :
  reaches opcode_of vm vm1 ->
  chunk vm1 = chunk vm /\ ip vm <= ip vm1 /\
  stdout vm1 = stdout vm /\ stderr vm1 = stderr vm.
Proof.
  induction 1 as [vm|vm vm1 vm2 Hs _ IH].
  - split_and!; [reflexivity|lia|reflexivity..].
  - destruct (step_continue _ _ Hs) as (Hc & Hi & _ & Ho & He).
    destruct IH as (Hc' & Hi' & Ho' & He').
    split_and!; [congruence|lia|congruence..].
Qed.

Lemma run_loop_inv (fuel : nat) :
  forall (vm vm' : VM) (r : InterpretResult),
  run_loop opcode_of fuel vm = Some (Ok (r, vm')) ->
  exists vm1, reaches opcode_of vm vm1 /\ step opcode_of vm1 = Ok (Return r vm').
Proof.
  induction fuel as [|fuel IH]; intros vm vm' r H; simpl in H;
    [discriminate|].
  destruct (step opcode_of vm) as [[vm1|r1 vm1]| |] eqn:Hs;
    try discriminate.
  - destruct (IH _ _ _ H) as (vm2 & Hr & Hs2).
    exists vm2. split; [|exact Hs2]. exact (reaches_turn _ _ _ _ Hs Hr).
  - injection H as -> ->. exists vm. split; [constructor|exact Hs].
Qed.

(** The loop always leaves: [turns vm] turns are enough for any machine. *)
Lemma run_loop_leaves (fuel : nat) :
  forall vm : VM,
  (Z.to_nat (Z.of_nat (length (code (chunk vm))) - ip vm) < fuel)%nat ->
  is_Some (run_loop opcode_of fuel vm).
Proof.
  induction fuel as [|fuel IH]; intros vm Hfuel; [lia|]. simpl.
  destruct (step opcode_of vm) as [[vm1|r1 vm1]| |] eqn:Hs; try (eexists; reflexivity).
  destruct (step_continue _ _ Hs) as (Hc & Hi & Hrange & _).
  apply IH. rewrite Hc. lia.
Qed.

Lemma run_is_Some (vm : VM) : is_Some (run opcode_of vm).
Proof. apply run_loop_leaves. unfold turns. lia. Qed.

Lemma run_loop_more (fuel : nat) :
  forall (vm : VM) (fuel' : nat) (res : Outcome (InterpretResult * VM)),
  run_loop opcode_of fuel vm = Some res -> (fuel <= fuel')%nat ->
  run_loop opcode_of fuel' vm = Some res.
Proof.
  induction fuel as [|fuel IH]; intros vm fuel' res H Hle; simpl in H;
    [discriminate|].
  destruct fuel' as [|fuel']; [lia|]. simpl.
  destruct (step opcode_of vm) as [[vm1|r1 vm1]| |]; try exact H.
  apply (IH _ _ _ H). lia.
Qed.

Lemma run_loop_run (fuel : nat) (vm : VM)
    (res : Outcome (InterpretResult * VM)) :
  run_loop opcode_of fuel vm = Some res -> run opcode_of vm = Some res.
Proof.
  intros H. destruct (run_is_Some vm) as [res' Hr].
  pose proof (run_loop_more _ _ (Nat.max fuel (turns vm)) _ H
                (Nat.le_max_l _ _)) as H1.
  pose proof (run_loop_more _ _ (Nat.max fuel (turns vm)) _ Hr
                (Nat.le_max_r _ _)) as H2.
  congruence.
Qed.

Lemma reaches_run (vm vm1 : VM) (res : Outcome (InterpretResult * VM)) :
  reaches opcode_of vm vm1 -> run opcode_of vm1 = Some res ->
  run opcode_of vm = Some res.
Proof.
  induction 1 as [vm|vm vm1 vm2 Hs _ IH]; intros Hr; [exact Hr|].
  apply (run_loop_run (S (turns vm1))). simpl. rewrite Hs.
  apply IH. exact Hr.
Qed.

Lemma step_return_run (vm vm' : VM) (r : InterpretResult) :
  step opcode_of vm = Ok (Return r vm') ->
  run opcode_of vm = Some (Ok (r, vm')).
Proof.
  intros Hs. apply (run_loop_run 1). simpl. rewrite Hs. reflexivity.
Qed.

End Properties.

(** ** The instructions *)

Section Instructions.

Variable opcode_of : Z -> option OpCode.

(** C1, as the code has it. With [a] pushed first and [b] second,
    Greater-or-equal pops [b] then [a] and pushes [Bool(a > b)]: the case
    of [OP_GREATER_EQUAL] applies [>], the operator of [OP_GREATER].
    Greater, Less and Less-or-equal push [Bool(a > b)], [Bool(a < b)] and
    [Bool(a <= b)]. *)
Theorem comparison_opcodes (vm : VM) (byte : Z) (op : OpCode)
    (vs : list Value) (a b : float) (r : bool) :
  fetch (code (chunk vm)) (ip vm) = Ok byte ->
  opcode_of byte = Some op ->
  match op with
  | OP_GREATER_EQUAL => Some (PrimFloat.ltb b a)
  | OP_GREATER => Some (PrimFloat.ltb b a)
  | OP_LESS => Some (PrimFloat.ltb a b)
  | OP_LESS_EQUAL => Some (PrimFloat.leb a b)
  | _ => None
  end = Some r ->
  holds (stack vm) (vs ++ [NUMBER_VAL a; NUMBER_VAL b]) ->
  step opcode_of vm
    = Ok (Continue (set_stack (set_ip vm (ip vm + 1))
                              (replaced2 (stack vm) (BOOL_VAL r)))) /\
  holds (replaced2 (stack vm) (BOOL_VAL r)) (vs ++ [BOOL_VAL r]).
Proof.
  intros Hf Hop Hr H. rewrite (step_dispatch _ _ _ Hf).
  unfold dispatch. rewrite Hop.
  destruct op; try discriminate Hr; injection Hr as <-.
  - apply (BINARY_OP_numbers (fun a b => BOOL_VAL (gt a b))
             (set_ip vm (ip vm + 1)) vs a b H).
  - apply (BINARY_OP_numbers (fun a b => BOOL_VAL (gt a b))
             (set_ip vm (ip vm + 1)) vs a b H).
  - apply (BINARY_OP_numbers (fun a b => BOOL_VAL (le a b))
             (set_ip vm (ip vm + 1)) vs a b H).
  - apply (BINARY_OP_numbers (fun a b => BOOL_VAL (lt a b))
             (set_ip vm (ip vm + 1)) vs a b H).
Qed.

(** C2, amended. For every byte that is not one of the defined opcodes,
    executing that byte raises no failure: the cursor moves past the byte,
    the stack and both channels are as they were, and the loop goes on
    with the next byte. *)
Theorem unknown_opcode_skipped (vm : VM) (byte : Z) :
  fetch (code (chunk vm)) (ip vm) = Ok byte ->
  opcode_of byte = None ->
  step opcode_of vm = Ok (Continue (set_ip vm (ip vm + 1))) /\
  stack (set_ip vm (ip vm + 1)) = stack vm /\
  stdout (set_ip vm (ip vm + 1)) = stdout vm /\
  stderr (set_ip vm (ip vm + 1)) = stderr vm.
Proof.
  intros Hf Hop. rewrite (step_dispatch _ _ _ Hf).
  unfold dispatch. rewrite Hop. split_and!; reflexivity.
Qed.

(** C3, as the code has it. On a stack with [count = 0], [peekStack] stops
    at its assertion, while [peekStackReference] makes no check and hands
    out the slot before the buffer; Negate, Increment and Decrement then
    read that slot, which is undefined rather than a reported abort. *)
Theorem peekStackReference_unchecked (vm : VM) (byte : Z) (op : OpCode) :
  count (stack vm) = 0 ->
  fetch (code (chunk vm)) (ip vm) = Ok byte ->
  opcode_of byte = Some op ->
  op = OP_NEGATE \/ op = OP_INC \/ op = OP_DEC ->
  peekStack (stack vm) 0 = AssertFail "stack is empty" /\
  peekStackReference (stack vm) 0 = -1 /\
  step opcode_of vm = Undefined.
Proof.
  intros Hc Hf Hop Hcase. split_and!.
  - unfold peekStack, isStackEmpty. rewrite Hc. reflexivity.
  - unfold peekStackReference. lia.
  - rewrite (step_dispatch _ _ _ Hf). unfold dispatch. rewrite Hop.
    destruct Hcase as [->|[->| ->]]; unfold in_place, peekStackReference;
      simpl; rewrite Hc; reflexivity.
Qed.

(** The converse reading: a run that returned the runtime error went
    through turns that wrote nothing to the error channel, up to one turn
    that wrote the message and the line of its opcode and reset the stack. *)
Lemma runtime_error_return_inv (vm vm' : VM) :
  run opcode_of vm = Some (Ok (INTERPRET_RUNTIME_ERROR, vm')) ->
  exists (vm1 : VM) (msg : string) (line : Z),
    reaches opcode_of vm vm1 /\
    step opcode_of vm1 = Ok (Return INTERPRET_RUNTIME_ERROR vm') /\
    fetch (lines (chunk vm)) (ip vm1) = Ok line /\
    stderr vm' = stderr vm ++ [ErrMessage msg; ErrLine line] /\
    (msg = "Operand must be a number."%string \/
     msg = "Operands must be numbers."%string) /\
    count (stack vm') = 0 /\
    stdout vm' = stdout vm.
Proof.
  intros Hrun. apply run_loop_inv in Hrun.
  destruct Hrun as (vm1 & Hreach & Hstep).
  destruct (reaches_frame _ _ _ Hreach) as (Hchunk & _ & Hout & Herr).
  pose proof Hstep as Hs. apply step_inv in Hs.
  destruct Hs as (byte & _ & Hd). apply dispatch_shape in Hd.
  inversion Hd as [| |msg line Hline Hmsg]; subst.
  exists vm1, msg, line. simpl in Hline.
  replace (ip vm1 + 1 - 1) with (ip vm1) in Hline by lia.
  rewrite Hchunk in Hline.
  split_and!; try assumption; simpl; try reflexivity; congruence.
Qed.

(** C5. The right-hand operand is popped before the left-hand one: with
    [a] pushed first and [b] second, the first pop yields [b], the second
    [a], and Add, Sub, Mult and Div leave [Number(a op b)] on top of the
    values that were beneath. *)
Theorem arithmetic_operand_order (vm : VM) (byte : Z) (op : OpCode)
    (vs : list Value) (a b r : float) :
  fetch (code (chunk vm)) (ip vm) = Ok byte ->
  opcode_of byte = Some op ->
  arithmetic op a b = Some r ->
  holds (stack vm) (vs ++ [NUMBER_VAL a; NUMBER_VAL b]) ->
  popStack (stack vm) = Ok (NUMBER_VAL b, popped (stack vm)) /\
  popStack (popped (stack vm))
    = Ok (NUMBER_VAL a, popped (popped (stack vm))) /\
  step opcode_of vm
    = Ok (Continue (set_stack (set_ip vm (ip vm + 1))
                              (replaced2 (stack vm) (NUMBER_VAL r)))) /\
  holds (replaced2 (stack vm) (NUMBER_VAL r)) (vs ++ [NUMBER_VAL r]).
Proof.
  intros Hf Hop Hr H.
  destruct (popStack_twice _ _ _ _ H) as (Hp1 & Hp2 & _ & _).
  split; [exact Hp1|]. split; [exact Hp2|].
  rewrite (step_dispatch _ _ _ Hf). unfold dispatch. rewrite Hop.
  destruct op; try discriminate Hr; injection Hr as <-.
  - apply (BINARY_OP_numbers (fun a b => NUMBER_VAL (PrimFloat.add a b))
             (set_ip vm (ip vm + 1)) vs a b H).
  - apply (BINARY_OP_numbers (fun a b => NUMBER_VAL (PrimFloat.sub a b))
             (set_ip vm (ip vm + 1)) vs a b H).
  - apply (BINARY_OP_numbers (fun a b => NUMBER_VAL (PrimFloat.mul a b))
             (set_ip vm (ip vm + 1)) vs a b H).
  - apply (BINARY_OP_numbers (fun a b => NUMBER_VAL (PrimFloat.div a b))
             (set_ip vm (ip vm + 1)) vs a b H).
Qed.

(** C6. On a Number top, Negate, Increment and Decrement write the
    negation, the value plus one and the value minus one into the top
    slot: the count, the capacity and every other slot are as before. On
    any other top, each of them returns the runtime error after reporting
    "Operand must be a number.", and the stack is empty afterwards. *)
Theorem unary_in_place (vm : VM) (byte : Z) (op : OpCode)
    (vs : list Value) (v : Value) :
  fetch (code (chunk vm)) (ip vm) = Ok byte ->
  opcode_of byte = Some op ->
  op = OP_NEGATE \/ op = OP_INC \/ op = OP_DEC ->
  holds (stack vm) (vs ++ [v]) ->
  (forall n r : float,
     v = NUMBER_VAL n -> unary op n = Some r ->
     let s' := top_set (stack vm) (NUMBER_VAL r) in
     step opcode_of vm
       = Ok (Continue (set_stack (set_ip vm (ip vm + 1)) s')) /\
     holds s' (vs ++ [NUMBER_VAL r]) /\
     count s' = count (stack vm) /\
     capacity s' = capacity (stack vm) /\
     forall i : nat,
       i <> Z.to_nat (count (stack vm) - 1) ->
       data s' !! i = data (stack vm) !! i) /\
  (forall line : Z,
     IS_NUMBER v = false ->
     fetch (lines (chunk vm)) (ip vm) = Ok line ->
     let vm' := reported (set_ip vm (ip vm + 1))
                  "Operand must be a number." line in
     step opcode_of vm = Ok (Return INTERPRET_RUNTIME_ERROR vm') /\
     stderr vm'
       = stderr vm ++ [ErrMessage "Operand must be a number."; ErrLine line] /\
     count (stack vm') = 0).
Proof.
  intros Hf Hop Hcase H. rewrite (step_dispatch _ _ _ Hf).
  unfold dispatch. rewrite Hop. split.
  - intros n r -> Hr.
    destruct (top_set_frame (stack vm) (NUMBER_VAL r)) as (Hc & Hcap & Hd).
    destruct Hcase as [->|[->| ->]]; injection Hr as <-.
    + destruct (in_place_number (fun n => PrimFloat.mul n (-1))
                  (set_ip vm (ip vm + 1)) vs n H) as [Hs Hh].
      cbv beta in Hs, Hh. rewrite mul_minus_one in Hs, Hh.
      split_and!; assumption.
    + destruct (in_place_number (fun n => PrimFloat.add n 1)
                  (set_ip vm (ip vm + 1)) vs n H) as [Hs Hh].
      split_and!; assumption.
    + destruct (in_place_number (fun n => PrimFloat.sub n 1)
                  (set_ip vm (ip vm + 1)) vs n H) as [Hs Hh].
      split_and!; assumption.
  - intros line Hv Hl.
    assert (Hl' : fetch (lines (chunk (set_ip vm (ip vm + 1))))
                    (ip (set_ip vm (ip vm + 1)) - 1) = Ok line).
    { simpl. replace (ip vm + 1 - 1) with (ip vm) by lia. exact Hl. }
    split_and!; [|reflexivity..].
    destruct Hcase as [->|[->| ->]];
      apply (in_place_not_number _ (set_ip vm (ip vm + 1)) vs v line H Hv Hl').
Qed.

(** C7, as the code has it. Equal and Not-equal pop [b] then [a] and push
    a Bool. When the tags differ, both push [false]: the macro does not
    look at its operator in that branch, nor in the branch of two [Nil],
    where both push [true]. With two Bool or two Number, Equal pushes
    whether the payloads are equal and Not-equal whether they differ. *)
Theorem equality_opcodes (vm : VM) (byte : Z) (op : OpCode)
    (vs : list Value) (a b : Value) (r : bool) :
  fetch (code (chunk vm)) (ip vm) = Ok byte ->
  opcode_of byte = Some op ->
  match op, a, b with
  | OP_EQUAL, NIL_VAL, NIL_VAL => Some true
  | OP_EQUAL, BOOL_VAL x, BOOL_VAL y => Some (Bool.eqb x y)
  | OP_EQUAL, NUMBER_VAL x, NUMBER_VAL y => Some (PrimFloat.eqb x y)
  | OP_EQUAL, _, _ => Some false
  | OP_NOT_EQUAL, NIL_VAL, NIL_VAL => Some true
  | OP_NOT_EQUAL, BOOL_VAL x, BOOL_VAL y => Some (negb (Bool.eqb x y))
  | OP_NOT_EQUAL, NUMBER_VAL x, NUMBER_VAL y => Some (negb (PrimFloat.eqb x y))
  | OP_NOT_EQUAL, _, _ => Some false
  | _, _, _ => None
  end = Some r ->
  holds (stack vm) (vs ++ [a; b]) ->
  step opcode_of vm
    = Ok (Continue (set_stack (set_ip vm (ip vm + 1))
                              (replaced2 (stack vm) (BOOL_VAL r)))) /\
  holds (replaced2 (stack vm) (BOOL_VAL r)) (vs ++ [BOOL_VAL r]).
Proof.
  intros Hf Hop Hr H. rewrite (step_dispatch _ _ _ Hf).
  unfold dispatch. rewrite Hop.
  destruct op; try discriminate Hr.
  - pose proof (EQUALITY_OP_values eq_bool eq_double
                  (set_ip vm (ip vm + 1)) vs a b H) as He.
    destruct a, b; injection Hr as <-; exact He.
  - pose proof (EQUALITY_OP_values ne_bool ne_double
                  (set_ip vm (ip vm + 1)) vs a b H) as He.
    destruct a, b; injection Hr as <-; exact He.
Qed.

(** C8. Load-constant reads the pool index in the byte after the opcode.
    If the constant there is a Number, it is pushed and the loop goes on
    after the operand byte. If it is not, the turn returns the runtime
    error after reporting "Operand must be a number.", and nothing is
    pushed: the buffer is untouched and the count is 0. *)
Theorem load_constant (vm : VM) (byte index : Z) (c : Value)
    (vs : list Value) :
  fetch (code (chunk vm)) (ip vm) = Ok byte ->
  opcode_of byte = Some OP_CONSTANT ->
  fetch (code (chunk vm)) (ip vm + 1) = Ok index ->
  fetch (constants (chunk vm)) index = Ok c ->
  holds (stack vm) vs ->
  (IS_NUMBER c = true -> 0 < capacity (stack vm) ->
   exists s' : Stack,
     pushStack (stack vm) c = Ok s' /\
     step opcode_of vm = Ok (Continue (set_stack (set_ip vm (ip vm + 2)) s')) /\
     holds s' (vs ++ [c])) /\
  (forall line : Z,
     IS_NUMBER c = false ->
     fetch (lines (chunk vm)) (ip vm) = Ok line ->
     let vm' := reported (set_ip vm (ip vm + 1))
                  "Operand must be a number." line in
     step opcode_of vm = Ok (Return INTERPRET_RUNTIME_ERROR vm') /\
     stderr vm'
       = stderr vm ++ [ErrMessage "Operand must be a number."; ErrLine line] /\
     data (stack vm') = data (stack vm) /\
     count (stack vm') = 0).
Proof.
  intros Hf Hop Hi Hc H. split.
  - intros Hnum Hpos.
    destruct (pushStack_holds _ _ c H Hpos) as (s' & Hp & Hh & _).
    exists s'. split; [exact Hp|]. split; [|exact Hh].
    rewrite (step_dispatch _ _ _ Hf). unfold dispatch. rewrite Hop.
    simpl. rewrite Hi. simpl. rewrite Hc. simpl.
    unfold THROW_IF_NAN. rewrite Hnum. simpl.
    unfold push_literal. simpl. rewrite Hp. simpl.
    unfold set_stack, set_ip. simpl. do 3 f_equal. lia.
  - intros line Hnum Hl vm'. subst vm'. split_and!; [|reflexivity..].
    rewrite (step_dispatch _ _ _ Hf). unfold dispatch. rewrite Hop.
    simpl. rewrite Hi. simpl. rewrite Hc. simpl.
    unfold THROW_IF_NAN. rewrite Hnum. simpl.
    rewrite (runtimeError_reported _ _ line); [reflexivity|].
    simpl. replace (ip vm + 1 - 1) with (ip vm) by lia. exact Hl.
Qed.

(** C10. When a run reaches Return with a non-empty stack, the run ends
    with [INTERPRET_OK]; the top value, and only it, is popped and printed
    as the result; the stack is not reset: the values beneath are still
    held, the count is one less, and buffer and capacity are untouched. *)
Theorem return_pops_only_top (vm vm1 : VM) (byte : Z)
    (vs : list Value) (v : Value) :
  reaches opcode_of vm vm1 ->
  fetch (code (chunk vm1)) (ip vm1) = Ok byte ->
  opcode_of byte = Some OP_RET ->
  holds (stack vm1) (vs ++ [v]) ->
  let vm' := put_stdout (set_stack (set_ip vm1 (ip vm1 + 1))
                                   (popped (stack vm1)))
                        (print_value v) in
  run opcode_of vm = Some (Ok (INTERPRET_OK, vm')) /\
  stdout vm' = stdout vm ++ [print_value v] /\
  stderr vm' = stderr vm /\
  holds (stack vm') vs /\
  count (stack vm') = count (stack vm1) - 1 /\
  data (stack vm') = data (stack vm1) /\
  capacity (stack vm') = capacity (stack vm1).
Proof.
  intros Hreach Hf Hop H vm'.
  destruct (popStack_holds _ _ _ H) as [Hp Hh].
  destruct (reaches_frame _ _ _ Hreach) as (_ & _ & Hout & Herr).
  assert (Hs : step opcode_of vm1 = Ok (Return INTERPRET_OK vm')).
  { rewrite (step_dispatch _ _ _ Hf). unfold dispatch. rewrite Hop.
    simpl. rewrite Hp. reflexivity. }
  split_and!; try reflexivity.
  - apply (reaches_run _ _ _ _ Hreach). apply step_return_run. exact Hs.
  - subst vm'. simpl. rewrite Hout. reflexivity.
  - subst vm'. simpl. exact Herr.
  - exact Hh.
Qed.

End Instructions.

(** ** Growth of the stack *)

(** C9, amended. For every stack with [0 <= count <= capacity] in a buffer of
    [capacity] slots, and with [capacity >= 1], a push succeeds: on a full
    stack it doubles the capacity, keeps the entries and their order, and
    appends the value. [N] pushes followed by [N] pops return the pushed
    values last first, leave the entries that were there (none, if the stack
    was empty), and the capacity has not decreased. *)
Theorem pushStack_grows_lifo (s : Stack) (vs ws : list Value) (v : Value) :
  holds s vs -> 0 < capacity s ->
  (exists s' : Stack,
     pushStack s v = Ok s' /\ holds s' (vs ++ [v]) /\
     capacity s' = (if isStackFull s then capacity s * 2 else capacity s)) /\
  (exists s1 s2 : Stack,
     push_all s ws = Ok s1 /\ holds s1 (vs ++ ws) /\
     pop_n (length ws) s1 = Ok (rev ws, s2) /\ holds s2 vs /\
     count s2 = count s /\
     capacity s <= capacity s1 /\ capacity s2 = capacity s1).
Proof.
  intros H Hpos. split.
  - destruct (pushStack_holds s vs v H Hpos) as (s' & Hp & Hh & Hcap & _).
    exists s'. split_and!; assumption.
  - destruct (push_all_holds ws s vs H Hpos) as (s1 & Hall & Hh1 & Hle).
    destruct (pop_n_holds ws s1 vs Hh1) as (s2 & Hn & Hh2 & Hcap & _).
    exists s1, s2. split_and!; try assumption.
    destruct H as (Hc & _). destruct Hh2 as (Hc2 & _). lia.
Qed.

(** C9 as stated fails on a stack of capacity 0: it is within
    [0 <= count <= capacity], it is full, doubling leaves the capacity at 0,
    and the write of the slot at [count] falls outside the buffer. *)
Lemma pushStack_zero_capacity :
  (0 <= count (initStack 0) <= capacity (initStack 0)) /\
  holds (initStack 0) [] /\
  pushStack (initStack 0) NIL_VAL = Undefined /\
  ~ (forall (s : Stack) (vs : list Value) (v : Value),
       0 <= count s <= capacity s -> holds s vs ->
       exists s' : Stack, pushStack s v = Ok s').
Proof.
  assert (Hh : holds (initStack 0) []) by (split_and!; reflexivity).
  split_and!; [simpl; lia..|exact Hh|reflexivity|].
  intros Hall.
  destruct (Hall (initStack 0) [] NIL_VAL) as (s' & Hs'); [simpl; lia|exact Hh|].
  discriminate Hs'.
Qed.

Lemma pushStack_grows_lifo_witness :
  let ws := [NUMBER_VAL 1; NUMBER_VAL 2; NUMBER_VAL 3] in
  (exists s' : Stack,
     pushStack (initStack 1) NIL_VAL = Ok s' /\ holds s' ([] ++ [NIL_VAL]) /\
     capacity s' = (if isStackFull (initStack 1)
                    then capacity (initStack 1) * 2
                    else capacity (initStack 1))) /\
  (exists s1 s2 : Stack,
     push_all (initStack 1) ws = Ok s1 /\ holds s1 ([] ++ ws) /\
     pop_n (length ws) s1 = Ok (rev ws, s2) /\ holds s2 [] /\
     count s2 = count (initStack 1) /\
     capacity (initStack 1) <= capacity s1 /\ capacity s2 = capacity s1).
Proof.
  apply (pushStack_grows_lifo (initStack 1) []
           [NUMBER_VAL 1; NUMBER_VAL 2; NUMBER_VAL 3] NIL_VAL).
  - split_and!; reflexivity.
  - reflexivity.
Defined.

(** ** Concrete runs *)

(** C1 at equal operands: Greater-or-equal on 1 and 1 pushes [false],
    where [1 >= 1] holds. *)
Lemma comparison_opcodes_witness :
  let vm := machine (script [byte_of OP_GREATER_EQUAL] [])
              (stack_of [NUMBER_VAL 1; NUMBER_VAL 1] 8) in
  step in_order vm
    = Ok (Continue (set_stack (set_ip vm 1)
                      (stack_with_above [BOOL_VAL false] [Some (NUMBER_VAL 1)] 8))) /\
  holds (stack_with_above [BOOL_VAL false] [Some (NUMBER_VAL 1)] 8)
        [BOOL_VAL false].
Proof.
  apply (comparison_opcodes in_order
           (machine (script [byte_of OP_GREATER_EQUAL] [])
              (stack_of [NUMBER_VAL 1; NUMBER_VAL 1] 8))
           (byte_of OP_GREATER_EQUAL) OP_GREATER_EQUAL [] 1 1 false);
    [reflexivity..|].
  split_and!; reflexivity.
Defined.

(** C2 as stated fails on the byte 99, which no opcode is numbered: the
    turn goes on to the next byte, and the run of [99; Load-true; Return]
    ends in success with nothing on the error channel. *)
Lemma unknown_opcode_not_fatal :
  let vm := machine (script [99; byte_of OP_TRUE; byte_of OP_RET] [])
              (initStack 8) in
  in_order 99 = None /\
  step in_order vm = Ok (Continue (set_ip vm 1)) /\
  exists vm' : VM,
    run in_order vm = Some (Ok (INTERPRET_OK, vm')) /\
    stdout vm' = [OutText "true"] /\ stderr vm' = [].
Proof.
  split_and!; [reflexivity..|].
  eexists. split_and!; reflexivity.
Qed.

Lemma unknown_opcode_skipped_witness :
  let vm := machine (script [99; byte_of OP_TRUE; byte_of OP_RET] [])
              (initStack 8) in
  step in_order vm = Ok (Continue (set_ip vm (ip vm + 1))) /\
  stack (set_ip vm (ip vm + 1)) = stack vm /\
  stdout (set_ip vm (ip vm + 1)) = stdout vm /\
  stderr (set_ip vm (ip vm + 1)) = stderr vm.
Proof.
  apply (unknown_opcode_skipped in_order
           (machine (script [99; byte_of OP_TRUE; byte_of OP_RET] [])
              (initStack 8)) 99); reflexivity.
Defined.

(** C3 on the program [Negate] started on the empty stack. *)
Lemma peekStackReference_unchecked_witness :
  let vm := machine (script [byte_of OP_NEGATE] []) (initStack 8) in
  peekStack (stack vm) 0 = AssertFail "stack is empty" /\
  peekStackReference (stack vm) 0 = -1 /\
  step in_order vm = Undefined.
Proof.
  apply (peekStackReference_unchecked in_order
           (machine (script [byte_of OP_NEGATE] []) (initStack 8))
           (byte_of OP_NEGATE) OP_NEGATE);
    [reflexivity..|left; reflexivity].
Defined.

(** C5 on the example of the specification: push 10, push 3, Sub leaves 7. *)
Lemma arithmetic_operand_order_witness :
  let vm := machine (script [byte_of OP_SUB] [])
              (stack_of [NUMBER_VAL 10; NUMBER_VAL 3] 8) in
  popStack (stack vm) = Ok (NUMBER_VAL 3, popped (stack vm)) /\
  popStack (popped (stack vm))
    = Ok (NUMBER_VAL 10, popped (popped (stack vm))) /\
  step in_order vm
    = Ok (Continue (set_stack (set_ip vm 1)
                      (stack_with_above [NUMBER_VAL 7] [Some (NUMBER_VAL 3)] 8))) /\
  holds (stack_with_above [NUMBER_VAL 7] [Some (NUMBER_VAL 3)] 8)
        [NUMBER_VAL 7].
Proof.
  apply (arithmetic_operand_order in_order
           (machine (script [byte_of OP_SUB] [])
              (stack_of [NUMBER_VAL 10; NUMBER_VAL 3] 8))
           (byte_of OP_SUB) OP_SUB [] 10 3 7);
    [reflexivity..|].
  split_and!; reflexivity.
Defined.

(** C6 on Negate: the top 5 becomes -5 above an untouched [Nil], and on the
    top [true] of scenario C the run fails for line 2 with an empty stack. *)
Lemma unary_in_place_witness :
  let vmA := machine (script [byte_of OP_NEGATE] [])
               (stack_of [NIL_VAL; NUMBER_VAL 5] 8) in
  let vmB := set_ip (machine (script [byte_of OP_TRUE; byte_of OP_NEGATE] [])
                       (stack_of [BOOL_VAL true] 8)) 1 in
  (step in_order vmA
     = Ok (Continue (set_stack (set_ip vmA 1)
                       (stack_of [NIL_VAL; NUMBER_VAL (-5)] 8))) /\
   holds (stack_of [NIL_VAL; NUMBER_VAL (-5)] 8) [NIL_VAL; NUMBER_VAL (-5)]) /\
  (step in_order vmB
     = Ok (Return INTERPRET_RUNTIME_ERROR
             (reported (set_ip vmB 2) "Operand must be a number." 2)) /\
   count (stack (reported (set_ip vmB 2) "Operand must be a number." 2)) = 0).
Proof.
  intros vmA vmB. split.
  - assert (HA : holds (stack vmA) ([NIL_VAL] ++ [NUMBER_VAL 5]))
      by (split_and!; reflexivity).
    destruct (proj1 (unary_in_place in_order vmA (byte_of OP_NEGATE) OP_NEGATE
                       [NIL_VAL] (NUMBER_VAL 5) eq_refl eq_refl
                       (or_introl eq_refl) HA)
                5%float (-5)%float eq_refl eq_refl) as (Hs & Hh & _).
    split; [exact Hs|exact Hh].
  - assert (HB : holds (stack vmB) ([] ++ [BOOL_VAL true]))
      by (split_and!; reflexivity).
    destruct (proj2 (unary_in_place in_order vmB (byte_of OP_NEGATE) OP_NEGATE
                       [] (BOOL_VAL true) eq_refl eq_refl
                       (or_introl eq_refl) HB)
                2 eq_refl eq_refl) as (Hs & _ & Hc).
    split; [exact Hs|exact Hc].
Defined.

(** C7 at operands of different tags: Not-equal on [true] and [Nil] pushes
    [false], where the two are not equal. *)
Lemma equality_opcodes_witness :
  let vm := machine (script [byte_of OP_NOT_EQUAL] [])
              (stack_of [BOOL_VAL true; NIL_VAL] 8) in
  step in_order vm
    = Ok (Continue (set_stack (set_ip vm 1)
                      (stack_with_above [BOOL_VAL false] [Some NIL_VAL] 8))) /\
  holds (stack_with_above [BOOL_VAL false] [Some NIL_VAL] 8) [BOOL_VAL false].
Proof.
  apply (equality_opcodes in_order
           (machine (script [byte_of OP_NOT_EQUAL] [])
              (stack_of [BOOL_VAL true; NIL_VAL] 8))
           (byte_of OP_NOT_EQUAL) OP_NOT_EQUAL [] (BOOL_VAL true) NIL_VAL false);
    [reflexivity..|].
  split_and!; reflexivity.
Defined.

(** C8 on a pool that holds the Number 2 at index 0 and [Nil] at index 1. *)
Lemma load_constant_witness :
  let pool := [NUMBER_VAL 2; NIL_VAL] in
  let vmA := machine (script [byte_of OP_CONSTANT; 0] pool) (initStack 8) in
  let vmB := machine (script [byte_of OP_CONSTANT; 1] pool) (initStack 8) in
  (exists s' : Stack,
     pushStack (stack vmA) (NUMBER_VAL 2) = Ok s' /\
     step in_order vmA = Ok (Continue (set_stack (set_ip vmA 2) s')) /\
     holds s' [NUMBER_VAL 2]) /\
  (step in_order vmB
     = Ok (Return INTERPRET_RUNTIME_ERROR
             (reported (set_ip vmB 1) "Operand must be a number." 1)) /\
   data (stack (reported (set_ip vmB 1) "Operand must be a number." 1))
     = data (stack vmB) /\
   count (stack (reported (set_ip vmB 1) "Operand must be a number." 1)) = 0).
Proof.
  intros pool vmA vmB. split.
  - assert (HA : holds (stack vmA) []) by (split_and!; reflexivity).
    exact (proj1 (load_constant in_order vmA (byte_of OP_CONSTANT) 0
                    (NUMBER_VAL 2) [] eq_refl eq_refl eq_refl eq_refl HA)
             eq_refl eq_refl).
  - assert (HB : holds (stack vmB) []) by (split_and!; reflexivity).
    destruct (proj2 (load_constant in_order vmB (byte_of OP_CONSTANT) 1
                       NIL_VAL [] eq_refl eq_refl eq_refl eq_refl HB)
                1 eq_refl eq_refl) as (Hs & _ & Hd & Hc).
    split_and!; [exact Hs|exact Hd|exact Hc].
Defined.

(** C10 on [Load-true; Load-nil; Return]: [Nil] is printed and [true] is
    still on the stack when the run has ended. *)
Lemma return_pops_only_top_witness :
  let vm := machine (script [byte_of OP_TRUE; byte_of OP_NIL; byte_of OP_RET] [])
              (initStack 8) in
  let vm1 := set_stack (set_ip vm 2) (stack_of [BOOL_VAL true; NIL_VAL] 8) in
  let vm' := put_stdout (set_stack (set_ip vm1 3) (popped (stack vm1)))
                        (OutText "nil") in
  run in_order vm = Some (Ok (INTERPRET_OK, vm')) /\
  stdout vm' = stdout vm ++ [OutText "nil"] /\
  stderr vm' = stderr vm /\
  holds (stack vm') [BOOL_VAL true] /\
  count (stack vm') = count (stack vm1) - 1 /\
  data (stack vm') = data (stack vm1) /\
  capacity (stack vm') = capacity (stack vm1).
Proof.
  intros vm vm1 vm'.
  assert (Hreach : reaches in_order vm vm1).
  { apply (reaches_turn in_order vm
             (set_stack (set_ip vm 1) (stack_of [BOOL_VAL true] 8)));
      [reflexivity|].
    apply (reaches_turn in_order _ vm1); [reflexivity|].
    apply reaches_here. }
  assert (H1 : holds (stack vm1) ([BOOL_VAL true] ++ [NIL_VAL]))
    by (split_and!; reflexivity).
  exact (return_pops_only_top in_order vm vm1 (byte_of OP_RET)
           [BOOL_VAL true] NIL_VAL Hreach eq_refl eq_refl H1).
Defined.

(** * Further properties of the engine *)

(** ** Inversion of the stack functions *)

Lemma popStack_inv (s s' : Stack) (vs : list Value) (v : Value) :
  holds s vs -> popStack s = Ok (v, s') ->
  exists vs', vs = vs' ++ [v] /\ s' = popped s /\ holds s' vs'.
Proof.
  intros H Hp. destruct vs as [|x vs' _] using rev_ind.
  - destruct H as (Hc & _). unfold popStack, isStackEmpty in Hp.
    rewrite Hc in Hp. discriminate Hp.
  - destruct (popStack_holds _ _ _ H) as [Hp' Hh].
    rewrite Hp' in Hp. injection Hp as -> <-.
    exists vs'. split_and!; [reflexivity..|exact Hh].
Qed.

Lemma pushStack_inv (s s' : Stack) (vs : list Value) (v : Value) :
  holds s vs -> 0 < capacity s -> pushStack s v = Ok s' ->
  holds s' (vs ++ [v]) /\ capacity s <= capacity s'.
Proof.
  intros H Hpos Hp.
  destruct (pushStack_holds _ _ v H Hpos) as (s1 & Hp1 & Hh & _ & Hle).
  rewrite Hp1 in Hp. injection Hp as <-. split; assumption.
Qed.

Lemma popStack_empty (s : Stack) :
  count s = 0 -> popStack s = AssertFail "stack is empty".
Proof. intros Hc. unfold popStack, isStackEmpty. rewrite Hc. reflexivity. Qed.

Lemma peekStack_empty (s : Stack) (d : Z) :
  count s = 0 -> peekStack s d = AssertFail "stack is empty".
Proof. intros Hc. unfold peekStack, isStackEmpty. rewrite Hc. reflexivity. Qed.


(** ** Type errors and underflow of the two-operand macros *)

Lemma BINARY_OP_type_error (R : float -> float -> Value) (vm : VM)
    (vs : list Value) (a b : Value) (line : Z) :
  holds (stack vm) (vs ++ [a; b]) ->
  IS_NUMBER a && IS_NUMBER b = false ->
  fetch (lines (chunk vm)) (ip vm - 1) = Ok line ->
  BINARY_OP R vm
    = Ok (Return INTERPRET_RUNTIME_ERROR
            (reported vm "Operands must be numbers." line)).
Proof.
  intros H Hab Hl. unfold BINARY_OP.
  rewrite (peekStack_top _ (vs ++ [a]) b) by (rewrite <- app_assoc; exact H).
  simpl. destruct (IS_NUMBER b) eqn:Eb; simpl.
  - rewrite (peekStack_below _ _ _ _ H). simpl.
    rewrite andb_true_r in Hab. rewrite Hab. simpl.
    rewrite (runtimeError_reported _ _ line Hl). reflexivity.
  - rewrite (runtimeError_reported _ _ line Hl). reflexivity.
Qed.

Lemma BINARY_OP_lone (R : float -> float -> Value) (vm : VM) (v : Value)
    (line : Z) :
  holds (stack vm) [v] ->
  fetch (lines (chunk vm)) (ip vm - 1) = Ok line ->
  BINARY_OP R vm
    = if IS_NUMBER v then Undefined
      else Ok (Return INTERPRET_RUNTIME_ERROR
                 (reported vm "Operands must be numbers." line)).
Proof.
  intros H Hl. unfold BINARY_OP.
  rewrite (peekStack_top _ [] v H). simpl.
  destruct (IS_NUMBER v) eqn:Ev; simpl.
  - destruct H as (Hc & _). simpl in Hc.
    unfold peekStack, isStackEmpty. rewrite Hc. simpl. reflexivity.
  - rewrite (runtimeError_reported _ _ line Hl). reflexivity.
Qed.

Section MoreInstructions.

Variable opcode_of : Z -> option OpCode.

Lemma dispatch_numeric_binary (byte : Z) (op : OpCode) :
  opcode_of byte = Some op -> numeric_binary op = true ->
  exists R : float -> float -> Value,
    forall vm : VM, dispatch opcode_of byte vm = BINARY_OP R vm.
Proof.
  intros Hop Hn. unfold dispatch. rewrite Hop.
  destruct op; try discriminate Hn; eexists; intros vm; reflexivity.
Qed.

(** X1. With two operands on top of which at least one is not a Number, each of
    the eight comparison and arithmetic opcodes returns the runtime error
    after reporting "Operands must be numbers." for the line of the opcode;
    the check comes before the pops, so the buffer is as it was and only the
    count is reset. *)
Theorem binary_operands_must_be_numbers (vm : VM) (byte : Z) (op : OpCode)
    (vs : list Value) (a b : Value) (line : Z) :
  fetch (code (chunk vm)) (ip vm) = Ok byte ->
  opcode_of byte = Some op ->
  numeric_binary op = true ->
  holds (stack vm) (vs ++ [a; b]) ->
  IS_NUMBER a && IS_NUMBER b = false ->
  fetch (lines (chunk vm)) (ip vm) = Ok line ->
  let vm' := reported (set_ip vm (ip vm + 1)) "Operands must be numbers." line in
  step opcode_of vm = Ok (Return INTERPRET_RUNTIME_ERROR vm') /\
  stderr vm' = stderr vm ++ [ErrMessage "Operands must be numbers."; ErrLine line] /\
  stdout vm' = stdout vm /\
  data (stack vm') = data (stack vm) /\
  capacity (stack vm') = capacity (stack vm) /\
  count (stack vm') = 0.
Proof.
  intros Hf Hop Hn H Hab Hl vm'. subst vm'.
  split_and!; [|reflexivity..].
  rewrite (step_dispatch _ _ _ Hf).
  destruct (dispatch_numeric_binary _ _ Hop Hn) as (R & ->).
  apply (BINARY_OP_type_error R (set_ip vm (ip vm + 1)) vs a b line H Hab).
  simpl. replace (ip vm + 1 - 1) with (ip vm) by lia. exact Hl.
Qed.

(** X2. With a single value on the stack, the eight comparison and arithmetic
    opcodes depend on its tag. If it is not a Number the [||] of the check
    stops at it and the type error is reported. If it is a Number the check
    goes on to [peekStack(1)], whose assertion only rules out the empty
    stack: the slot before the buffer is read, with no abort. *)
Theorem binary_lone_operand (vm : VM) (byte : Z) (op : OpCode)
    (v : Value) (line : Z) :
  fetch (code (chunk vm)) (ip vm) = Ok byte ->
  opcode_of byte = Some op ->
  numeric_binary op = true ->
  holds (stack vm) [v] ->
  fetch (lines (chunk vm)) (ip vm) = Ok line ->
  step opcode_of vm
    = if IS_NUMBER v then Undefined
      else Ok (Return INTERPRET_RUNTIME_ERROR
                 (reported (set_ip vm (ip vm + 1))
                    "Operands must be numbers." line)).
Proof.
  intros Hf Hop Hn H Hl.
  rewrite (step_dispatch _ _ _ Hf).
  destruct (dispatch_numeric_binary _ _ Hop Hn) as (R & ->).
  apply (BINARY_OP_lone R (set_ip vm (ip vm + 1)) v line H).
  simpl. replace (ip vm + 1 - 1) with (ip vm) by lia. exact Hl.
Qed.

(** X3. On the empty stack, Return, Logical-not, the logic and equality opcodes
    and the comparison and arithmetic opcodes all stop at the assertion
    "stack is empty" of [popStack] or [peekStack]: nothing is printed,
    reported or returned. *)
Theorem empty_stack_asserts (vm : VM) (byte : Z) (op : OpCode) :
  fetch (code (chunk vm)) (ip vm) = Ok byte ->
  opcode_of byte = Some op ->
  asserts_non_empty op = true ->
  count (stack vm) = 0 ->
  step opcode_of vm = AssertFail "stack is empty" /\
  forall fuel : nat,
    run_loop opcode_of (S fuel) vm = Some (AssertFail "stack is empty").
Proof.
  intros Hf Hop Ha Hc.
  assert (Hs : step opcode_of vm = AssertFail "stack is empty").
  { rewrite (step_dispatch _ _ _ Hf). unfold dispatch. rewrite Hop.
    destruct op; try discriminate Ha;
      unfold BINARY_OP, BINARY_LOGIC_OP, EQUALITY_OP; simpl;
      rewrite ?(popStack_empty _ Hc), ?(peekStack_empty _ _ Hc);
      reflexivity. }
  split; [exact Hs|]. intros fuel. simpl. rewrite Hs. reflexivity.
Qed.

(** X4. With a single value on the stack, the logic and equality opcodes pop it
    and stop at the assertion of their second [popStack]. *)
Theorem second_pop_asserts (vm : VM) (byte : Z) (op : OpCode) (v : Value) :
  fetch (code (chunk vm)) (ip vm) = Ok byte ->
  opcode_of byte = Some op ->
  pops_two op = true ->
  holds (stack vm) [v] ->
  step opcode_of vm = AssertFail "stack is empty".
Proof.
  intros Hf Hop Hp H.
  destruct (popStack_holds _ [] v H) as [Hp1 Hh].
  assert (Hp2 : popStack (popped (stack vm)) = AssertFail "stack is empty").
  { apply popStack_empty. destruct Hh as (Hc & _). exact Hc. }
  rewrite (step_dispatch _ _ _ Hf). unfold dispatch. rewrite Hop.
  destruct op; try discriminate Hp;
    unfold BINARY_LOGIC_OP, EQUALITY_OP; simpl;
    rewrite Hp1; simpl; rewrite Hp2; reflexivity.
Qed.

Lemma pop_push (s : Stack) (vs : list Value) (v r : Value) :
  holds s (vs ++ [v]) ->
  popStack s = Ok (v, popped s) /\
  pushStack (popped s) r = Ok (top_set s r) /\
  holds (top_set s r) (vs ++ [r]).
Proof.
  intros H. destruct (popStack_holds _ _ _ H) as [Hp Hh].
  destruct (holds_split _ _ H) as [_ Hle].
  pose proof H as (Hc & Hcap & _). rewrite length_app in Hc, Hle.
  simpl in Hc, Hle.
  destruct (pushStack_room (popped s) vs r Hh) as [Hpush Hh'];
    [simpl; lia|].
  assert (Heq : top_set s r
                = {| data := <[length vs := Some r]> (data (popped s));
                     count := count (popped s) + 1;
                     capacity := capacity (popped s) |}).
  { unfold top_set, set_data. simpl. f_equal; [f_equal|]; lia. }
  rewrite Heq. split_and!; assumption.
Qed.

(** X5. Logical-not accepts any value: it pops the top [v] and pushes
    [Bool(isFalseyValue(v))] into the same slot; the values beneath, the
    count and the capacity are as before, and nothing is reported. *)
Theorem logical_not (vm : VM) (byte : Z) (vs : list Value) (v : Value) :
  fetch (code (chunk vm)) (ip vm) = Ok byte ->
  opcode_of byte = Some OP_NOT ->
  holds (stack vm) (vs ++ [v]) ->
  let s' := top_set (stack vm) (BOOL_VAL (isFalseyValue v)) in
  step opcode_of vm = Ok (Continue (set_stack (set_ip vm (ip vm + 1)) s')) /\
  holds s' (vs ++ [BOOL_VAL (isFalseyValue v)]) /\
  count s' = count (stack vm) /\ capacity s' = capacity (stack vm).
Proof.
  intros Hf Hop H s'. subst s'.
  destruct (pop_push _ _ _ (BOOL_VAL (isFalseyValue v)) H) as (Hp & Hpush & Hh).
  split_and!; [|exact Hh|reflexivity..].
  rewrite (step_dispatch _ _ _ Hf). unfold dispatch. rewrite Hop.
  simpl. rewrite Hp. simpl. rewrite Hpush. reflexivity.
Qed.

(** X6. Logical-and, -or and -xor accept any two values: with [a] pushed first
    and [b] second they pop both and push [Bool(toBool(a) op toBool(b))];
    no operand is rejected for its tag. *)
Theorem logic_opcodes (vm : VM) (byte : Z) (op : OpCode)
    (f : bool -> bool -> bool) (vs : list Value) (a b : Value) :
  fetch (code (chunk vm)) (ip vm) = Ok byte ->
  opcode_of byte = Some op ->
  logic op = Some f ->
  holds (stack vm) (vs ++ [a; b]) ->
  let r := BOOL_VAL (f (toBool a) (toBool b)) in
  step opcode_of vm
    = Ok (Continue (set_stack (set_ip vm (ip vm + 1))
                              (replaced2 (stack vm) r))) /\
  holds (replaced2 (stack vm) r) (vs ++ [r]).
Proof.
  intros Hf Hop Hl H r. subst r.
  destruct (popStack_twice _ _ _ _ H) as (Hp1 & Hp2 & _ & _).
  destruct (pop2_push _ _ _ _ (BOOL_VAL (f (toBool a) (toBool b))) H)
    as [Hpush Hh].
  split; [|exact Hh].
  rewrite (step_dispatch _ _ _ Hf). unfold dispatch. rewrite Hop.
  destruct op; try discriminate Hl; injection Hl as <-;
    unfold BINARY_LOGIC_OP; simpl; rewrite Hp1; simpl; rewrite Hp2; simpl;
    rewrite Hpush; reflexivity.
Qed.

(** X7. Load-true, Load-false and Load-nil push their literal on any well-formed
    stack, growing it if it is full, and move one byte on. *)
Theorem literal_opcodes (vm : VM) (byte : Z) (op : OpCode) (lit : Value)
    (vs : list Value) :
  fetch (code (chunk vm)) (ip vm) = Ok byte ->
  opcode_of byte = Some op ->
  literal op = Some lit ->
  holds (stack vm) vs -> 0 < capacity (stack vm) ->
  exists s' : Stack,
    step opcode_of vm = Ok (Continue (set_stack (set_ip vm (ip vm + 1)) s')) /\
    holds s' (vs ++ [lit]) /\
    capacity s' = (if isStackFull (stack vm) then capacity (stack vm) * 2
                   else capacity (stack vm)).
Proof.
  intros Hf Hop Hl H Hpos.
  destruct (pushStack_holds _ _ lit H Hpos) as (s' & Hp & Hh & Hcap & _).
  exists s'. split_and!; [|exact Hh|exact Hcap].
  rewrite (step_dispatch _ _ _ Hf). unfold dispatch. rewrite Hop.
  destruct op; try discriminate Hl; injection Hl as <-;
    unfold push_literal; simpl; rewrite Hp; reflexivity.
Qed.

End MoreInstructions.

(** ** The effect of a turn on the machine *)

Lemma stack_moves_well_formed (s s' : Stack) :
  stack_moves s s' -> well_formed s ->
  well_formed s' /\ capacity s <= capacity s'.
Proof.
  induction 1 as [s|s s1 s2 v Hp _ IH|s s1 s2 v Hp _ IH|s s2 d v r Hl Hs _ IH];
    intros (Hpos & vs & H).
  - split; [split; [exact Hpos|exists vs; exact H]|lia].
  - destruct (pushStack_inv _ _ _ _ H Hpos Hp) as [Hh Hle].
    destruct IH as [Hwf Hle']; [split; [lia|eexists; exact Hh]|].
    split; [exact Hwf|lia].
  - destruct (popStack_inv _ _ _ _ H Hp) as (vs' & -> & -> & Hh).
    destruct IH as [Hwf Hle']; [split; [exact Hpos|eexists; exact Hh]|].
    split; [exact Hwf|exact Hle'].
  - destruct vs as [|x vs' _] using rev_ind.
    + destruct H as (Hc & _). unfold load, peekStackReference in Hl.
      rewrite Hc in Hl. discriminate Hl.
    + destruct (store_top _ _ _ r H) as [Hs' Hh].
      rewrite Hs' in Hs. injection Hs as <-.
      destruct IH as [Hwf Hle']; [split; [exact Hpos|eexists; exact Hh]|].
      split; [exact Hwf|exact Hle'].
Qed.

Lemma THROW_IF_NAN_effect (vm : VM) (val : Value) (rest : Outcome Step)
    (st : Step) :
  (rest = Ok st -> macro_effect vm st) ->
  THROW_IF_NAN vm val rest = Ok st -> macro_effect vm st.
Proof.
  intros Hrest H. unfold THROW_IF_NAN in H.
  destruct (negb (IS_NUMBER val)); [|exact (Hrest H)].
  apply bind_Ok_inv in H. destruct H as (vm' & He & H).
  apply runtimeError_inv in He. destruct He as (line & Hl & ->).
  injection H as <-. apply macro_error. exact Hl.
Qed.

Lemma BINARY_OP_effect (R : float -> float -> Value) (vm : VM) (st : Step) :
  BINARY_OP R vm = Ok st -> macro_effect vm st.
Proof.
  intros H. unfold BINARY_OP in H.
  apply bind_Ok_inv in H. destruct H as (top & _ & H).
  apply bind_Ok_inv in H. destruct H as ([|] & _ & H).
  - apply bind_Ok_inv in H. destruct H as (vm' & He & H).
    apply runtimeError_inv in He. destruct He as (line & Hl & ->).
    injection H as <-. apply macro_error. exact Hl.
  - apply bind_Ok_inv in H. destruct H as ([vb s1] & Hp1 & H).
    apply bind_Ok_inv in H. destruct H as (b & _ & H).
    apply bind_Ok_inv in H. destruct H as ([va s2] & Hp2 & H).
    apply bind_Ok_inv in H. destruct H as (a & _ & H).
    apply bind_Ok_inv in H. destruct H as (s3 & Hp3 & H).
    injection H as <-. apply macro_continue.
    eauto using stack_moves.
Qed.

Lemma BINARY_LOGIC_OP_effect (op : bool -> bool -> bool) (vm : VM)
    (st : Step) :
  BINARY_LOGIC_OP op vm = Ok st -> macro_effect vm st.
Proof.
  intros H. unfold BINARY_LOGIC_OP in H.
  apply bind_Ok_inv in H. destruct H as ([vb s1] & Hp1 & H).
  apply bind_Ok_inv in H. destruct H as ([va s2] & Hp2 & H).
  apply bind_Ok_inv in H. destruct H as (s3 & Hp3 & H).
  injection H as <-. apply macro_continue. eauto using stack_moves.
Qed.

Lemma EQUALITY_OP_effect (ob : bool -> bool -> bool)
    (od : float -> float -> bool) (vm : VM) (st : Step) :
  EQUALITY_OP ob od vm = Ok st -> macro_effect vm st.
Proof.
  intros H. unfold EQUALITY_OP in H.
  apply bind_Ok_inv in H. destruct H as ([vb s1] & Hp1 & H).
  apply bind_Ok_inv in H. destruct H as ([va s2] & Hp2 & H).
  apply bind_Ok_inv in H. destruct H as (s3 & Hp3 & H).
  injection H as <-. apply macro_continue.
  apply (moves_pop _ _ _ _ Hp1). apply (moves_pop _ _ _ _ Hp2).
  destruct (negb (ValueType_eqb (type_of va) (type_of vb)));
    [eauto using stack_moves|].
  destruct (type_of va); invert_outcome; eauto using stack_moves.
Qed.

Lemma in_place_effect (f : float -> float) (vm : VM) (st : Step) :
  in_place f vm = Ok st -> macro_effect vm st.
Proof.
  intros H. unfold in_place in H.
  apply bind_Ok_inv in H. destruct H as (v & Hl & H).
  revert H. apply THROW_IF_NAN_effect. intros H.
  apply bind_Ok_inv in H. destruct H as (n & _ & H).
  apply bind_Ok_inv in H. destruct H as (d & Hs & H).
  injection H as <-. apply macro_continue.
  eauto using stack_moves.
Qed.

Lemma push_literal_effect (vm : VM) (v : Value) (st : Step) :
  push_literal vm v = Ok st -> macro_effect vm st.
Proof.
  intros H. unfold push_literal in H.
  apply bind_Ok_inv in H. destruct H as (s & Hp & H).
  injection H as <-. apply macro_continue. eauto using stack_moves.
Qed.

Lemma macro_turn_effect (vm : VM) (st : Step) :
  macro_effect vm st -> turn_effect vm st.
Proof.
  intros [s' Hm|msg line Hl].
  - replace (set_stack vm s') with (set_stack (set_ip vm (ip vm)) s')
      by (destruct vm; reflexivity).
    apply effect_continue; [lia|exact Hm].
  - apply effect_error. exact Hl.
Qed.

Section Turns.

Variable opcode_of : Z -> option OpCode.

Lemma dispatch_macro_effect (byte : Z) (vm : VM) (st : Step) :
  dispatch opcode_of byte vm = Ok st ->
  opcode_of byte <> Some OP_RET -> opcode_of byte <> Some OP_CONSTANT ->
  macro_effect vm st.
Proof.
  unfold dispatch. intros H Hret Hconst.
  destruct (opcode_of byte) as [[]|];
    eauto using BINARY_OP_effect, BINARY_LOGIC_OP_effect, EQUALITY_OP_effect,
                in_place_effect, push_literal_effect; try congruence.
  - apply bind_Ok_inv in H. destruct H as ([v s1] & Hp1 & H).
    apply bind_Ok_inv in H. destruct H as (s2 & Hp2 & H).
    injection H as <-. apply macro_continue. eauto using stack_moves.
  - injection H as <-.
    replace vm with (set_stack vm (stack vm)) at 2 by (destruct vm; reflexivity).
    apply macro_continue. constructor.
Qed.

Lemma dispatch_effect (byte : Z) (vm : VM) (st : Step) :
  dispatch opcode_of byte vm = Ok st -> turn_effect vm st.
Proof.
  intros H.
  destruct (opcode_of byte) as [op|] eqn:Hop.
  - destruct op;
      try (apply macro_turn_effect;
           apply (dispatch_macro_effect byte vm st H);
           rewrite Hop; discriminate).
    + unfold dispatch in H. rewrite Hop in H.
      apply bind_Ok_inv in H. destruct H as ([v s1] & Hp1 & H).
      injection H as <-. apply effect_return. exact Hp1.
    + unfold dispatch in H. rewrite Hop in H.
      apply bind_Ok_inv in H. destruct H as (index & _ & H).
      apply bind_Ok_inv in H. destruct H as (constant & _ & H).
      unfold THROW_IF_NAN in H. destruct (negb (IS_NUMBER constant)).
      * apply bind_Ok_inv in H. destruct H as (vm' & He & H).
        apply runtimeError_inv in He. destruct He as (line & Hl & ->).
        injection H as <-. apply effect_error. exact Hl.
      * unfold push_literal in H.
        apply bind_Ok_inv in H. destruct H as (s & Hp & H).
        injection H as <-. simpl.
        apply (effect_continue vm (ip vm + 1) s); [lia|].
        simpl in Hp. eauto using stack_moves.
  - apply macro_turn_effect. apply (dispatch_macro_effect byte vm st H);
      rewrite Hop; discriminate.
Qed.

(** A turn hands back success only from the case of [OP_RET]. *)
Lemma dispatch_ok_is_return (byte : Z) (vm vm' : VM) :
  dispatch opcode_of byte vm = Ok (Return INTERPRET_OK vm') ->
  opcode_of byte = Some OP_RET.
Proof.
  intros H.
  destruct (opcode_of byte) as [op|] eqn:Hop.
  - destruct op; try reflexivity;
      try (exfalso;
           assert (Hm : macro_effect vm (Return INTERPRET_OK vm'))
             by (apply (dispatch_macro_effect byte vm _ H);
                 rewrite Hop; discriminate);
           inversion Hm).
    exfalso. unfold dispatch in H. rewrite Hop in H.
    apply bind_Ok_inv in H. destruct H as (index & _ & H).
    apply bind_Ok_inv in H. destruct H as (constant & _ & H).
    unfold THROW_IF_NAN, push_literal in H.
    destruct (negb (IS_NUMBER constant)); invert_outcome; discriminate.
  - exfalso.
    assert (Hm : macro_effect vm (Return INTERPRET_OK vm'))
      by (apply (dispatch_macro_effect byte vm _ H); rewrite Hop; discriminate).
    inversion Hm.
Qed.

Lemma resetStack_holds (s : Stack) (vs : list Value) :
  holds s vs -> holds (resetStack s) [].
Proof.
  intros (_ & Hcap & _). split_and!; [reflexivity|exact Hcap|reflexivity].
Qed.

Lemma step_well_formed (vm : VM) (st : Step) :
  step opcode_of vm = Ok st ->
  well_formed (stack vm) ->
  well_formed (stack (machine_of st)) /\
  capacity (stack vm) <= capacity (stack (machine_of st)).
Proof.
  intros Hs Hwf. apply step_inv in Hs. destruct Hs as (byte & _ & Hd).
  apply dispatch_effect in Hd.
  inversion Hd as [ip' s' Hip Hm|v s' Hp|msg line Hl]; subst; simpl in *.
  - exact (stack_moves_well_formed _ _ Hm Hwf).
  - destruct Hwf as (Hpos & vs & H).
    destruct (popStack_inv _ _ _ _ H Hp) as (vs' & -> & -> & Hh).
    split; [split; [exact Hpos|eexists; exact Hh]|simpl; lia].
  - destruct Hwf as (Hpos & vs & H).
    split; [split; [exact Hpos|eexists; exact (resetStack_holds _ _ H)]|lia].
Qed.

(** X8. Every turn that hands the machine back, to the loop or to the caller,
    keeps the stack well formed and does not shrink its capacity; the chunk
    is the same and the cursor has moved one or two bytes forward. *)
Theorem turn_keeps_well_formed (vm : VM) (st : Step) :
  step opcode_of vm = Ok st ->
  well_formed (stack vm) ->
  well_formed (stack (machine_of st)) /\
  capacity (stack vm) <= capacity (stack (machine_of st)) /\
  chunk (machine_of st) = chunk vm /\
  ip vm + 1 <= ip (machine_of st) <= ip vm + 2.
Proof.
  intros Hs Hwf. destruct (step_well_formed _ _ Hs Hwf) as [Hwf' Hle].
  split; [exact Hwf'|]. split; [exact Hle|].
  apply step_inv in Hs. destruct Hs as (byte & _ & Hd).
  apply dispatch_effect in Hd.
  inversion Hd as [ip' s' Hip Hm|v s' Hp|msg line Hl]; subst; simpl in *;
    (split; [reflexivity|lia]).
Qed.

Lemma reaches_well_formed (vm vm1 : VM) :
  reaches opcode_of vm vm1 -> well_formed (stack vm) ->
  well_formed (stack vm1) /\ capacity (stack vm) <= capacity (stack vm1).
Proof.
  induction 1 as [vm|vm vm1 vm2 Hs _ IH]; intros Hwf.
  - split; [exact Hwf|lia].
  - destruct (step_well_formed _ _ Hs Hwf) as (Hwf1 & Hle).
    simpl in Hwf1, Hle. destruct (IH Hwf1) as [Hwf2 Hle2].
    split; [exact Hwf2|lia].
Qed.

(** X9. A run that returns started on a well-formed stack leaves a well-formed
    stack of at least the same capacity, so the machine can run again. It
    returns success or the runtime error, never the compile error; the chunk
    is untouched and the cursor stops inside the code, past where it
    started. *)
Theorem run_keeps_well_formed (vm vm' : VM) (r : InterpretResult) :
  run opcode_of vm = Some (Ok (r, vm')) ->
  well_formed (stack vm) ->
  well_formed (stack vm') /\
  capacity (stack vm) <= capacity (stack vm') /\
  (r = INTERPRET_OK \/ r = INTERPRET_RUNTIME_ERROR) /\
  chunk vm' = chunk vm /\
  ip vm < ip vm' <= Z.of_nat (length (code (chunk vm))).
Proof.
  intros Hrun Hwf. apply run_loop_inv in Hrun.
  destruct Hrun as (vm1 & Hreach & Hs).
  destruct (reaches_well_formed _ _ Hreach Hwf) as [Hwf1 Hle1].
  destruct (reaches_frame _ _ _ Hreach) as (Hchunk & Hip & _).
  destruct (step_well_formed _ _ Hs Hwf1) as (Hwf' & Hle').
  simpl in Hwf', Hle'.
  apply step_inv in Hs. destruct Hs as (byte & Hf & Hd).
  apply fetch_in_range in Hf. apply dispatch_effect in Hd.
  rewrite Hchunk in Hf.
  split; [exact Hwf'|]. split; [lia|].
  inversion Hd as [| |msg line Hl]; subst; simpl;
    (split_and!; [auto|exact Hchunk|lia|lia]).
Qed.

Lemma run_ok_at_return (vm vm' : VM) :
  run opcode_of vm = Some (Ok (INTERPRET_OK, vm')) ->
  exists (vm1 : VM) (byte : Z),
    reaches opcode_of vm vm1 /\
    fetch (code (chunk vm)) (ip vm1) = Ok byte /\
    opcode_of byte = Some OP_RET.
Proof.
  intros Hrun. apply run_loop_inv in Hrun.
  destruct Hrun as (vm1 & Hreach & Hs).
  destruct (reaches_frame _ _ _ Hreach) as (Hchunk & _).
  apply step_inv in Hs. destruct Hs as (byte & Hf & Hd).
  exists vm1, byte. rewrite Hchunk in Hf.
  split_and!; [exact Hreach|exact Hf|exact (dispatch_ok_is_return _ _ _ Hd)].
Qed.

(** X10. A run that returns success went through one Return: it printed exactly
    one value, the one that Return popped, and nothing went to the error
    channel. *)
Theorem success_prints_one_value (vm vm' : VM) :
  run opcode_of vm = Some (Ok (INTERPRET_OK, vm')) ->
  exists (vm1 : VM) (byte : Z) (v : Value),
    reaches opcode_of vm vm1 /\
    fetch (code (chunk vm)) (ip vm1) = Ok byte /\
    opcode_of byte = Some OP_RET /\
    popStack (stack vm1) = Ok (v, stack vm') /\
    stdout vm' = stdout vm ++ [print_value v] /\
    stderr vm' = stderr vm.
Proof.
  intros Hrun. apply run_loop_inv in Hrun.
  destruct Hrun as (vm1 & Hreach & Hs).
  destruct (reaches_frame _ _ _ Hreach) as (Hchunk & _ & Hout & Herr).
  apply step_inv in Hs. destruct Hs as (byte & Hf & Hd).
  pose proof (dispatch_ok_is_return _ _ _ Hd) as Hop.
  apply dispatch_effect in Hd.
  inversion Hd as [|v s' Hp|]; subst. simpl in Hp.
  exists vm1, byte, v. rewrite Hchunk in Hf.
  split_and!; try assumption; simpl; congruence.
Qed.

(** X11. A program with no Return at or after the cursor never succeeds: its run
    ends in the runtime error, at a failed assertion, or by running past
    the end of the code into undefined behaviour. *)
Theorem no_return_no_success (vm : VM) :
  (forall (i byte : Z),
     ip vm <= i -> fetch (code (chunk vm)) i = Ok byte ->
     opcode_of byte <> Some OP_RET) ->
  exists res : Outcome (InterpretResult * VM),
    run opcode_of vm = Some res /\
    match res with
    | Ok (r, _) => r = INTERPRET_RUNTIME_ERROR
    | AssertFail _ => True
    | Undefined => True
    end.
Proof.
  intros Hno. destruct (run_is_Some opcode_of vm) as [res Hrun].
  exists res. split; [exact Hrun|].
  destruct res as [[r vm']| |]; [|exact I..].
  destruct r; [| |reflexivity].
  - destruct (run_ok_at_return _ _ Hrun) as (vm1 & byte & Hreach & Hf & Hop).
    destruct (reaches_frame _ _ _ Hreach) as (_ & Hip & _).
    destruct (Hno _ _ Hip Hf Hop).
  - apply run_loop_inv in Hrun. destruct Hrun as (vm1 & _ & Hs).
    apply step_inv in Hs. destruct Hs as (byte & _ & Hd).
    apply dispatch_effect in Hd. inversion Hd.
Qed.

(** X12. The loop has no jump: every turn moves the cursor forward, so a run is
    over within one turn per remaining byte plus one, and unrolling the loop
    further changes nothing. *)
Theorem run_ends_within_turns (vm : VM) (fuel : nat) :
  (turns vm <= fuel)%nat ->
  is_Some (run opcode_of vm) /\
  run_loop opcode_of fuel vm = run opcode_of vm.
Proof.
  intros Hle. destruct (run_is_Some opcode_of vm) as [res Hrun].
  split; [eexists; exact Hrun|].
  rewrite Hrun. apply (run_loop_more opcode_of (turns vm)); [exact Hrun|exact Hle].
Qed.

End Turns.

(** ** Growth and reuse of the stack *)

Lemma initStack_holds (c : Z) : 0 <= c -> holds (initStack c) [].
Proof.
  intros Hc. split_and!; [reflexivity| |reflexivity].
  simpl. rewrite length_replicate. lia.
Qed.

(** X13. While the values fit in the capacity, pushes do not reallocate: the
    capacity and the size of the buffer stay as they are. In particular a
    stack from [initStack c] takes its first [c] values in place. *)
Theorem pushes_within_capacity (ws : list Value) :
  forall (s : Stack) (vs : list Value),
  holds s vs ->
  count s + Z.of_nat (length ws) <= capacity s ->
  exists s1 : Stack,
    push_all s ws = Ok s1 /\ holds s1 (vs ++ ws) /\
    capacity s1 = capacity s /\ length (data s1) = length (data s).
Proof.
  induction ws as [|w ws IH]; intros s vs H Hfit; simpl in *.
  - exists s. rewrite app_nil_r. split_and!; [reflexivity|exact H|reflexivity..].
  - destruct (pushStack_room s vs w H) as [Hp Hh]; [lia|].
    destruct (IH _ _ Hh) as (s1 & Hall & Hh1 & Hcap & Hlen); [simpl; lia|].
    exists s1. rewrite Hp. simpl. rewrite <- app_assoc in Hh1.
    simpl in Hcap, Hlen. rewrite length_insert in Hlen.
    split_and!; assumption.
Qed.

Lemma pushStack_doubling (s s' : Stack) (vs : list Value) (v : Value) (c : Z) :
  holds s vs -> 0 < capacity s -> pushStack s v = Ok s' ->
  (exists k : nat, capacity s = c * 2 ^ Z.of_nat k) ->
  (capacity s = c \/ capacity s < 2 * count s) ->
  (exists k : nat, capacity s' = c * 2 ^ Z.of_nat k) /\
  (capacity s' = c \/ capacity s' < 2 * count s').
Proof.
  intros H Hpos Hp (k & Hk) Hb. pose proof H as (Hc & Hcap & _).
  destruct (holds_split _ _ H) as [_ Hle].
  destruct (count s =? capacity s) eqn:E.
  - apply Z.eqb_eq in E.
    destruct (pushStack_full s vs v H E Hpos) as [Hp' _].
    rewrite Hp' in Hp. injection Hp as <-. simpl. split.
    + exists (S k). rewrite Hk, Nat2Z.inj_succ, Z.pow_succ_r by lia. lia.
    + right. lia.
  - apply Z.eqb_neq in E.
    destruct (pushStack_room s vs v H) as [Hp' _]; [lia|].
    rewrite Hp' in Hp. injection Hp as <-. simpl. split.
    + exists k. exact Hk.
    + destruct Hb as [Hb|Hb]; [left; exact Hb|right; lia].
Qed.

(** X14. Growth is geometric: after any pushes onto a stack of capacity [c >= 1]
    the capacity is [c] times a power of two, and it is either still [c] or
    less than twice the number of values held. *)
Theorem capacity_is_geometric (ws : list Value) :
  forall (s s1 : Stack) (vs : list Value) (c : Z),
  holds s vs -> 0 < capacity s -> capacity s = c ->
  push_all s ws = Ok s1 ->
  (exists k : nat, capacity s1 = c * 2 ^ Z.of_nat k) /\
  (capacity s1 = c \/ capacity s1 < 2 * count s1).
Proof.
  intros s s1 vs c H Hpos Hc Hall.
  assert (Hk : exists k : nat, capacity s = c * 2 ^ Z.of_nat k)
    by (exists O; simpl; lia).
  assert (Hb : capacity s = c \/ capacity s < 2 * count s) by (left; exact Hc).
  clear Hc. revert s vs H Hpos Hall Hk Hb.
  induction ws as [|w ws IH]; intros s vs H Hpos Hall Hk Hb; simpl in Hall.
  - injection Hall as <-. split; assumption.
  - apply bind_Ok_inv in Hall. destruct Hall as (s' & Hp & Hall).
    destruct (pushStack_inv _ _ _ _ H Hpos Hp) as [Hh Hle].
    destruct (pushStack_doubling _ _ _ _ c H Hpos Hp Hk Hb) as [Hk' Hb'].
    apply (IH s' (vs ++ [w])); try assumption. lia.
Qed.

(** X15. [peekStack] at distance [d >= 0] on a non-empty stack returns the value
    [d] places below the top; at a distance that reaches below the bottom
    its assertion does not fire and the read falls before the buffer. *)
Theorem peekStack_at_distance (s : Stack) (vs : list Value) (d : nat) :
  holds s vs -> vs <> [] ->
  peekStack s (Z.of_nat d)
    = match reverse vs !! d with
      | Some v => Ok v
      | None => Undefined
      end.
Proof.
  intros H Hne. pose proof H as (Hc & _).
  unfold peekStack, isStackEmpty.
  destruct (count s =? 0) eqn:E.
  - apply Z.eqb_eq in E. destruct vs; [congruence|simpl in Hc; lia].
  - destruct (decide (d < length vs)%nat) as [Hd|Hd].
    + rewrite reverse_lookup by exact Hd.
      destruct (lookup_lt_is_Some_2 vs (length vs - S d)) as [v Hv]; [lia|].
      rewrite Hv.
      replace (count s - 1 - Z.of_nat d) with (Z.of_nat (length vs - S d)) by lia.
      apply (load_holds s vs _ v H Hv).
    + rewrite lookup_ge_None_2 by (rewrite length_reverse; lia).
      unfold load.
      destruct (0 <=? count s - 1 - Z.of_nat d) eqn:E1; [|reflexivity].
      apply Z.leb_le in E1. lia.
Qed.

(** X16. [resetStack] only sets the count to 0: the stack holds nothing, the
    buffer and the capacity are kept, and the next push writes slot 0 of
    that buffer without reallocating. *)
Theorem resetStack_reuses_buffer (s : Stack) (vs : list Value) (v : Value) :
  holds s vs -> 0 < capacity s ->
  holds (resetStack s) [] /\
  data (resetStack s) = data s /\ capacity (resetStack s) = capacity s /\
  pushStack (resetStack s) v
    = Ok {| data := <[0%nat := Some v]> (data s); count := 1;
            capacity := capacity s |}.
Proof.
  intros H Hpos. pose proof (resetStack_holds _ _ H) as Hr.
  split_and!; [exact Hr|reflexivity..|].
  destruct (pushStack_room (resetStack s) [] v Hr) as [Hp _]; [simpl; lia|].
  exact Hp.
Qed.


(** ** Negating twice *)

Lemma opp_involutive (x : float) : PrimFloat.opp (PrimFloat.opp x) = x.
Proof.
  apply Prim2SF_inj. rewrite !opp_spec.
  destruct (Prim2SF x); simpl; rewrite ?negb_involutive; reflexivity.
Qed.

Lemma top_set_back (s : Stack) (vs : list Value) (v r : Value) :
  holds s (vs ++ [v]) -> top_set (top_set s r) v = s.
Proof.
  intros H. pose proof H as (Hc & _). rewrite length_app in Hc. simpl in Hc.
  assert (Hd : data s !! Z.to_nat (count s - 1) = Some (Some v)).
  { apply (holds_lookup s (vs ++ [v])); [exact H|].
    replace (Z.to_nat (count s - 1)) with (length vs) by lia.
    rewrite lookup_app_r by lia. rewrite Nat.sub_diag. reflexivity. }
  unfold top_set, set_data. simpl.
  rewrite list_insert_insert_eq, (list_insert_id _ _ _ Hd).
  destruct s; reflexivity.
Qed.

Section Twice.

Variable opcode_of : Z -> option OpCode.

(** X17. Two Negate instructions in a row on a Number top are two turns that
    leave the stack exactly as it was, buffer included; the machine is two
    bytes further and nothing was written to the channels. *)
Theorem negate_twice (vm : VM) (byte1 byte2 : Z) (vs : list Value)
    (n : float) :
  fetch (code (chunk vm)) (ip vm) = Ok byte1 ->
  fetch (code (chunk vm)) (ip vm + 1) = Ok byte2 ->
  opcode_of byte1 = Some OP_NEGATE ->
  opcode_of byte2 = Some OP_NEGATE ->
  holds (stack vm) (vs ++ [NUMBER_VAL n]) ->
  exists vm1 : VM,
    step opcode_of vm = Ok (Continue vm1) /\
    step opcode_of vm1 = Ok (Continue (set_ip vm (ip vm + 2))) /\
    reaches opcode_of vm (set_ip vm (ip vm + 2)).
Proof.
  intros Hf1 Hf2 Hop1 Hop2 H.
  set (s1 := top_set (stack vm) (NUMBER_VAL (PrimFloat.mul n (-1)))).
  set (vm1 := set_stack (set_ip vm (ip vm + 1)) s1).
  destruct (in_place_number (fun n => PrimFloat.mul n (-1))
              (set_ip vm (ip vm + 1)) vs n H) as [Hs1 Hh1].
  assert (Hstep1 : step opcode_of vm = Ok (Continue vm1)).
  { rewrite (step_dispatch _ _ _ Hf1). unfold dispatch. rewrite Hop1.
    exact Hs1. }
  assert (Hstep2 : step opcode_of vm1 = Ok (Continue (set_ip vm (ip vm + 2)))).
  { rewrite (step_dispatch _ vm1 byte2) by exact Hf2.
    unfold dispatch. rewrite Hop2.
    destruct (in_place_number (fun n => PrimFloat.mul n (-1))
                (set_ip vm1 (ip vm1 + 1)) vs _ Hh1) as [Hs2 _].
    rewrite Hs2. do 2 f_equal. cbv beta.
    rewrite !mul_minus_one, opp_involutive. subst vm1 s1. simpl.
    rewrite mul_minus_one.
    rewrite (top_set_back _ vs (NUMBER_VAL n) _ H).
    unfold set_stack, set_ip. simpl. f_equal. lia. }
  exists vm1. split_and!; [exact Hstep1|exact Hstep2|].
  apply (reaches_turn _ _ _ _ Hstep1).
  apply (reaches_turn _ _ _ _ Hstep2). apply reaches_here.
Qed.

End Twice.

(** ** Tracing, release, and the entry point *)

Lemma show_slots_live (buf : list Slot) (ws : list Value) :
  forall k : nat,
  (forall (i : nat) (v : Value),
     ws !! i = Some v -> buf !! (k + i)%nat = Some (Some v)) ->
  show_slots buf (Z.of_nat k) (length ws)
  = Ok ((fun v => TraceSlot (print_value v)) <$> ws).
Proof.
  induction ws as [|w ws IH]; intros k Hbuf; [reflexivity|].
  assert (Hw : buf !! k = Some (Some w)).
  { rewrite <- (Nat.add_0_r k). apply Hbuf. reflexivity. }
  assert (Hl : load buf (Z.of_nat k) = Ok w).
  { unfold load. rewrite in_range, Nat2Z.id, Hw; [reflexivity|].
    apply (lookup_lt_Some _ _ _ Hw). }
  assert (Hrest : show_slots buf (Z.of_nat k + 1) (length ws)
                  = Ok ((fun v => TraceSlot (print_value v)) <$> ws)).
  { replace (Z.of_nat k + 1) with (Z.of_nat (S k)) by lia.
    apply IH. intros i v Hi.
    replace (S k + i)%nat with (k + S i)%nat by lia. apply Hbuf. exact Hi. }
  change (length (w :: ws)) with (S (length ws)).
  cbn [show_slots]. rewrite Hl. cbn [mbind Outcome_bind].
  rewrite Hrest. reflexivity.
Qed.

(** X18. [showStack] writes one line per live value, bottom of the stack first,
    then the closing empty line; it reads no slot above the count. *)
Theorem showStack_lists_live_values (s : Stack) (vs : list Value) :
  holds s vs ->
  showStack s = Ok (((fun v => TraceSlot (print_value v)) <$> vs) ++ [TraceEnd]).
Proof.
  intros H. pose proof H as (Hc & _).
  unfold showStack. destruct (count s <? 0) eqn:E; [apply Z.ltb_lt in E; lia|].
  rewrite Hc, Nat2Z.id.
  assert (Hs : show_slots (data s) 0 (length vs)
               = Ok ((fun v => TraceSlot (print_value v)) <$> vs)).
  { apply (show_slots_live (data s) vs 0).
    intros i v Hi. exact (holds_lookup s vs i v H Hi). }
  rewrite Hs. reflexivity.
Qed.

(** X19. [freeVM] releases the buffer but leaves the count and the capacity as
    they were, so the emptiness assertion of [popStack] and [peekStack] does
    not protect a released stack: with a value counted as live both read
    released memory, and a push without a reallocation writes to it. *)
Theorem freeVM_keeps_count (vm : VM) (vs : list Value) (v w : Value) :
  holds (stack vm) (vs ++ [v]) ->
  let s := stack (freeVM vm) in
  count s = count (stack vm) /\ capacity s = capacity (stack vm) /\
  popStack s = Undefined /\ peekStack s 0 = Undefined /\
  (count (stack vm) < capacity (stack vm) -> pushStack s w = Undefined).
Proof.
  intros H s. pose proof H as (Hc & _). rewrite length_app in Hc. simpl in Hc.
  assert (He : isStackEmpty s = false)
    by (unfold isStackEmpty; apply Z.eqb_neq; simpl; lia).
  split_and!; [reflexivity..| | |].
  - unfold popStack. rewrite He. simpl.
    unfold load. simpl. rewrite andb_false_intro2; [reflexivity|].
    apply Z.ltb_ge. lia.
  - unfold peekStack. rewrite He.
    unfold load. simpl. rewrite andb_false_intro2; [reflexivity|].
    apply Z.ltb_ge. lia.
  - intros Hroom. unfold pushStack, isStackFull.
    destruct (count s =? capacity s) eqn:E;
      [apply Z.eqb_eq in E; simpl in E; lia|].
    unfold store. simpl. rewrite andb_false_intro2; [reflexivity|].
    apply Z.ltb_ge. lia.
Qed.

Section Entry.

Variable opcode_of : Z -> option OpCode.
Variable compile : string -> option Chunk.

Lemma run_never_compile_error (vm vm' : VM) :
  run opcode_of vm <> Some (Ok (INTERPRET_COMPILE_ERROR, vm')).
Proof.
  intros Hrun. apply run_loop_inv in Hrun. destruct Hrun as (vm1 & _ & Hs).
  apply step_inv in Hs. destruct Hs as (byte & _ & Hd).
  apply dispatch_effect in Hd. inversion Hd.
Qed.

(** X20. [interpretChunk] returns the compile error exactly when [compile]
    fails, and then the engine has not run: the machine is handed back as
    it was. *)
Theorem compile_error_only_from_compile (vm vm' : VM) (source : string) :
  interpretChunk opcode_of compile vm source
    = Some (Ok (INTERPRET_COMPILE_ERROR, vm'))
  <-> compile source = None /\ vm' = vm.
Proof.
  unfold interpretChunk. split.
  - destruct (compile source) as [c|].
    + intros Hrun. destruct (run_never_compile_error _ _ Hrun).
    + intros Heq. injection Heq as <-. split; reflexivity.
  - intros [-> ->]. reflexivity.
Qed.

(** X21. A machine set up by [initVM] with a positive capacity has a well-formed
    stack, and every [interpretChunk] that returns on a well-formed stack
    hands back a well-formed stack of at least that capacity: the same
    machine can interpret source after source. *)
Theorem interpretChunk_keeps_well_formed (vm vm' : VM) (source : string)
    (r : InterpretResult) (c : Z) :
  (0 < c -> well_formed (stack (initVM vm c))) /\
  (well_formed (stack vm) ->
   interpretChunk opcode_of compile vm source = Some (Ok (r, vm')) ->
   well_formed (stack vm') /\ capacity (stack vm) <= capacity (stack vm')).
Proof.
  split.
  - intros Hc. split; [exact Hc|]. exists []. apply initStack_holds. lia.
  - intros Hwf. unfold interpretChunk.
    destruct (compile source) as [ch|].
    + intros Hrun. apply run_loop_inv in Hrun.
      destruct Hrun as (vm1 & Hreach & Hs).
      destruct (reaches_well_formed _ _ _ Hreach Hwf) as [Hwf1 Hle1].
      destruct (step_well_formed _ _ _ Hs Hwf1) as [Hwf' Hle'].
      simpl in *. split; [exact Hwf'|lia].
    + intros Heq. injection Heq as <- <-. split; [exact Hwf|lia].
Qed.

End Entry.

(** ** Concrete runs of the further properties *)

Lemma binary_operands_must_be_numbers_witness :
  let vm := machine (script [byte_of OP_ADD] [])
              (stack_of [NUMBER_VAL 1; BOOL_VAL true] 8) in
  let vm' := reported (set_ip vm 1) "Operands must be numbers." 1 in
  step in_order vm = Ok (Return INTERPRET_RUNTIME_ERROR vm') /\
  stderr vm' = stderr vm ++ [ErrMessage "Operands must be numbers."; ErrLine 1] /\
  stdout vm' = stdout vm /\
  data (stack vm') = data (stack vm) /\
  capacity (stack vm') = capacity (stack vm) /\
  count (stack vm') = 0.
Proof.
  apply (binary_operands_must_be_numbers in_order
           (machine (script [byte_of OP_ADD] [])
              (stack_of [NUMBER_VAL 1; BOOL_VAL true] 8))
           (byte_of OP_ADD) OP_ADD [] (NUMBER_VAL 1) (BOOL_VAL true) 1);
    try reflexivity.
  split_and!; reflexivity.
Defined.

Lemma binary_lone_operand_witness :
  let vmA := machine (script [byte_of OP_ADD] []) (stack_of [NUMBER_VAL 1] 8) in
  let vmB := machine (script [byte_of OP_ADD] []) (stack_of [NIL_VAL] 8) in
  step in_order vmA = Undefined /\
  step in_order vmB
    = Ok (Return INTERPRET_RUNTIME_ERROR
            (reported (set_ip vmB 1) "Operands must be numbers." 1)).
Proof.
  split.
  - apply (binary_lone_operand in_order
             (machine (script [byte_of OP_ADD] []) (stack_of [NUMBER_VAL 1] 8))
             (byte_of OP_ADD) OP_ADD (NUMBER_VAL 1) 1); try reflexivity.
    split_and!; reflexivity.
  - apply (binary_lone_operand in_order
             (machine (script [byte_of OP_ADD] []) (stack_of [NIL_VAL] 8))
             (byte_of OP_ADD) OP_ADD NIL_VAL 1); try reflexivity.
    split_and!; reflexivity.
Defined.

Lemma empty_stack_asserts_witness :
  let vm := machine (script [byte_of OP_RET] []) (initStack 8) in
  step in_order vm = AssertFail "stack is empty" /\
  forall fuel : nat,
    run_loop in_order (S fuel) vm = Some (AssertFail "stack is empty").
Proof.
  apply (empty_stack_asserts in_order
           (machine (script [byte_of OP_RET] []) (initStack 8))
           (byte_of OP_RET) OP_RET); reflexivity.
Defined.

Lemma second_pop_asserts_witness :
  step in_order (machine (script [byte_of OP_EQUAL] []) (stack_of [NIL_VAL] 8))
  = AssertFail "stack is empty".
Proof.
  apply (second_pop_asserts in_order
           (machine (script [byte_of OP_EQUAL] []) (stack_of [NIL_VAL] 8))
           (byte_of OP_EQUAL) OP_EQUAL NIL_VAL); try reflexivity.
  split_and!; reflexivity.
Defined.

(** Logical-not on the Number 0, which is truthy, pushes [false]. *)
Lemma logical_not_witness :
  let vm := machine (script [byte_of OP_NOT] [])
              (stack_of [NIL_VAL; NUMBER_VAL 0] 8) in
  let s' := stack_of [NIL_VAL; BOOL_VAL false] 8 in
  step in_order vm = Ok (Continue (set_stack (set_ip vm 1) s')) /\
  holds s' [NIL_VAL; BOOL_VAL false] /\
  count s' = count (stack vm) /\ capacity s' = capacity (stack vm).
Proof.
  apply (logical_not in_order
           (machine (script [byte_of OP_NOT] [])
              (stack_of [NIL_VAL; NUMBER_VAL 0] 8))
           (byte_of OP_NOT) [NIL_VAL] (NUMBER_VAL 0)); try reflexivity.
  split_and!; reflexivity.
Defined.

(** Logical-xor on [Nil] and the Number 0 pushes [true]. *)
Lemma logic_opcodes_witness :
  let vm := machine (script [byte_of OP_XOR] [])
              (stack_of [NIL_VAL; NUMBER_VAL 0] 8) in
  let s' := stack_with_above [BOOL_VAL true] [Some (NUMBER_VAL 0)] 8 in
  step in_order vm = Ok (Continue (set_stack (set_ip vm 1) s')) /\
  holds s' [BOOL_VAL true].
Proof.
  apply (logic_opcodes in_order
           (machine (script [byte_of OP_XOR] [])
              (stack_of [NIL_VAL; NUMBER_VAL 0] 8))
           (byte_of OP_XOR) OP_XOR xorb [] NIL_VAL (NUMBER_VAL 0));
    try reflexivity.
  split_and!; reflexivity.
Defined.

(** Load-nil on a full stack of capacity 1 doubles it. *)
Lemma literal_opcodes_witness :
  let vm := machine (script [byte_of OP_NIL] []) (stack_of [BOOL_VAL true] 1) in
  exists s' : Stack,
    step in_order vm = Ok (Continue (set_stack (set_ip vm (ip vm + 1)) s')) /\
    holds s' ([BOOL_VAL true] ++ [NIL_VAL]) /\
    capacity s' = (if isStackFull (stack vm) then capacity (stack vm) * 2
                   else capacity (stack vm)).
Proof.
  apply (literal_opcodes in_order
           (machine (script [byte_of OP_NIL] []) (stack_of [BOOL_VAL true] 1))
           (byte_of OP_NIL) OP_NIL NIL_VAL [BOOL_VAL true]); try reflexivity.
  split_and!; reflexivity.
Defined.

Lemma turn_keeps_well_formed_witness :
  let vm := machine (script [byte_of OP_TRUE] []) (initStack 1) in
  let st := Continue (set_stack (set_ip vm 1) (stack_of [BOOL_VAL true] 1)) in
  well_formed (stack (machine_of st)) /\
  capacity (stack vm) <= capacity (stack (machine_of st)) /\
  chunk (machine_of st) = chunk vm /\
  ip vm + 1 <= ip (machine_of st) <= ip vm + 2.
Proof.
  apply (turn_keeps_well_formed in_order
           (machine (script [byte_of OP_TRUE] []) (initStack 1))); [reflexivity|].
  split; [reflexivity|]. exists []. split_and!; reflexivity.
Defined.

Lemma run_keeps_well_formed_witness :
  let vm := machine (script [byte_of OP_TRUE; byte_of OP_RET] []) (initStack 1) in
  let vm' := {| chunk := chunk vm; ip := 2;
                stack := stack_with_above [] [Some (BOOL_VAL true)] 1;
                stdout := [OutText "true"]; stderr := [] |} in
  well_formed (stack vm') /\
  capacity (stack vm) <= capacity (stack vm') /\
  (INTERPRET_OK = INTERPRET_OK \/ INTERPRET_OK = INTERPRET_RUNTIME_ERROR) /\
  chunk vm' = chunk vm /\
  ip vm < ip vm' <= Z.of_nat (length (code (chunk vm))).
Proof.
  apply (run_keeps_well_formed in_order
           (machine (script [byte_of OP_TRUE; byte_of OP_RET] []) (initStack 1)));
    [reflexivity|].
  split; [reflexivity|]. exists []. split_and!; reflexivity.
Defined.

Lemma success_prints_one_value_witness :
  let vm := machine (script [byte_of OP_TRUE; byte_of OP_RET] []) (initStack 1) in
  let vm' := {| chunk := chunk vm; ip := 2;
                stack := stack_with_above [] [Some (BOOL_VAL true)] 1;
                stdout := [OutText "true"]; stderr := [] |} in
  exists (vm1 : VM) (byte : Z) (v : Value),
    reaches in_order vm vm1 /\
    fetch (code (chunk vm)) (ip vm1) = Ok byte /\
    in_order byte = Some OP_RET /\
    popStack (stack vm1) = Ok (v, stack vm') /\
    stdout vm' = stdout vm ++ [print_value v] /\
    stderr vm' = stderr vm.
Proof.
  apply (success_prints_one_value in_order). reflexivity.
Defined.

(** [Load-true; Negate] has no Return: its run ends in the runtime error. *)
Lemma no_return_no_success_witness :
  let vm := machine (script [byte_of OP_TRUE; byte_of OP_NEGATE] [])
              (initStack 8) in
  exists res : Outcome (InterpretResult * VM),
    run in_order vm = Some res /\
    match res with
    | Ok (r, _) => r = INTERPRET_RUNTIME_ERROR
    | AssertFail _ => True
    | Undefined => True
    end.
Proof.
  apply (no_return_no_success in_order).
  intros i byte Hi Hf. pose proof (fetch_in_range _ _ _ Hf) as Hr.
  simpl in Hi, Hr.
  assert (Hcase : i = 0 \/ i = 1) by lia.
  destruct Hcase as [-> | ->]; injection Hf as <-; discriminate.
Defined.

Lemma run_ends_within_turns_witness :
  let vm := machine (script [byte_of OP_TRUE; byte_of OP_RET] []) (initStack 8) in
  is_Some (run in_order vm) /\ run_loop in_order 10 vm = run in_order vm.
Proof.
  apply (run_ends_within_turns in_order
           (machine (script [byte_of OP_TRUE; byte_of OP_RET] []) (initStack 8))
           10).
  apply Nat.leb_le. reflexivity.
Defined.

Lemma pushes_within_capacity_witness :
  let ws := [NUMBER_VAL 1; NUMBER_VAL 2; NUMBER_VAL 3] in
  exists s1 : Stack,
    push_all (initStack 3) ws = Ok s1 /\ holds s1 ([] ++ ws) /\
    capacity s1 = capacity (initStack 3) /\
    length (data s1) = length (data (initStack 3)).
Proof.
  apply (pushes_within_capacity [NUMBER_VAL 1; NUMBER_VAL 2; NUMBER_VAL 3]
           (initStack 3) []).
  - split_and!; reflexivity.
  - simpl. lia.
Defined.

(** Five pushes from capacity 1 end at capacity 8, below twice 5. *)
Lemma capacity_is_geometric_witness :
  let ws := [NIL_VAL; NIL_VAL; NIL_VAL; NIL_VAL; NIL_VAL] in
  let s1 := stack_of ws 8 in
  (exists k : nat, capacity s1 = 1 * 2 ^ Z.of_nat k) /\
  (capacity s1 = 1 \/ capacity s1 < 2 * count s1).
Proof.
  apply (capacity_is_geometric [NIL_VAL; NIL_VAL; NIL_VAL; NIL_VAL; NIL_VAL]
           (initStack 1) _ [] 1); try reflexivity.
  split_and!; reflexivity.
Defined.

Lemma peekStack_at_distance_witness :
  let s := stack_of [NIL_VAL; BOOL_VAL true; NUMBER_VAL 7] 4 in
  peekStack s 1 = Ok (BOOL_VAL true) /\ peekStack s 5 = Undefined.
Proof.
  assert (H : holds (stack_of [NIL_VAL; BOOL_VAL true; NUMBER_VAL 7] 4)
                [NIL_VAL; BOOL_VAL true; NUMBER_VAL 7])
    by (split_and!; reflexivity).
  split.
  - apply (peekStack_at_distance _ _ 1 H). discriminate.
  - apply (peekStack_at_distance _ _ 5 H). discriminate.
Defined.

Lemma resetStack_reuses_buffer_witness :
  let s := stack_of [NIL_VAL; NIL_VAL] 2 in
  holds (resetStack s) [] /\
  data (resetStack s) = data s /\ capacity (resetStack s) = capacity s /\
  pushStack (resetStack s) (BOOL_VAL true)
    = Ok {| data := [Some (BOOL_VAL true); Some NIL_VAL]; count := 1;
            capacity := 2 |}.
Proof.
  apply (resetStack_reuses_buffer (stack_of [NIL_VAL; NIL_VAL] 2)
           [NIL_VAL; NIL_VAL] (BOOL_VAL true)).
  - split_and!; reflexivity.
  - reflexivity.
Defined.

Lemma negate_twice_witness :
  let vm := machine (script [byte_of OP_NEGATE; byte_of OP_NEGATE] [])
              (stack_of [NUMBER_VAL 3] 8) in
  exists vm1 : VM,
    step in_order vm = Ok (Continue vm1) /\
    step in_order vm1 = Ok (Continue (set_ip vm (ip vm + 2))) /\
    reaches in_order vm (set_ip vm (ip vm + 2)).
Proof.
  apply (negate_twice in_order
           (machine (script [byte_of OP_NEGATE; byte_of OP_NEGATE] [])
              (stack_of [NUMBER_VAL 3] 8))
           (byte_of OP_NEGATE) (byte_of OP_NEGATE) [] 3); try reflexivity.
  split_and!; reflexivity.
Defined.

Lemma showStack_lists_live_values_witness :
  showStack (stack_with_above [NIL_VAL; NUMBER_VAL 2] [Some (BOOL_VAL true)] 4)
  = Ok [TraceSlot (OutText "nil"); TraceSlot (OutDouble 2); TraceEnd].
Proof.
  apply (showStack_lists_live_values
           (stack_with_above [NIL_VAL; NUMBER_VAL 2] [Some (BOOL_VAL true)] 4)
           [NIL_VAL; NUMBER_VAL 2]).
  split_and!; reflexivity.
Defined.

Lemma freeVM_keeps_count_witness :
  let vm := machine (script [] []) (stack_of [NIL_VAL] 4) in
  let s := stack (freeVM vm) in
  count s = count (stack vm) /\ capacity s = capacity (stack vm) /\
  popStack s = Undefined /\ peekStack s 0 = Undefined /\
  (count (stack vm) < capacity (stack vm) ->
   pushStack s (BOOL_VAL true) = Undefined).
Proof.
  apply (freeVM_keeps_count (machine (script [] []) (stack_of [NIL_VAL] 4))
           [] NIL_VAL (BOOL_VAL true)).
  split_and!; reflexivity.
Defined.

(** A front end that compiles nothing but the source [true]. *)
Lemma compile_error_only_from_compile_witness :
  let compile := fun source : string =>
    if String.eqb source "true"
    then Some (script [byte_of OP_TRUE; byte_of OP_RET] []) else None in
  let vm := initVM (machine (script [] []) (initStack 0)) 8 in
  interpretChunk in_order compile vm "nil"
    = Some (Ok (INTERPRET_COMPILE_ERROR, vm)).
Proof.
  intros compile vm.
  apply (proj2 (compile_error_only_from_compile in_order compile vm vm "nil")).
  split; reflexivity.
Defined.

Lemma interpretChunk_keeps_well_formed_witness :
  let compile := fun source : string =>
    if String.eqb source "true"
    then Some (script [byte_of OP_TRUE; byte_of OP_RET] []) else None in
  let vm := initVM (machine (script [] []) (initStack 0)) 1 in
  let vm' := {| chunk := script [byte_of OP_TRUE; byte_of OP_RET] []; ip := 2;
                stack := stack_with_above [] [Some (BOOL_VAL true)] 1;
                stdout := [OutText "true"]; stderr := [] |} in
  well_formed (stack vm) /\
  well_formed (stack vm') /\ capacity (stack vm) <= capacity (stack vm').
Proof.
  intros compile vm vm'.
  destruct (interpretChunk_keeps_well_formed in_order compile
              (machine (script [] []) (initStack 0)) vm' "true" INTERPRET_OK 1)
    as [Hinit _].
  destruct (interpretChunk_keeps_well_formed in_order compile
              vm vm' "true" INTERPRET_OK 1) as [_ Hrun].
  assert (Hwf : well_formed (stack vm)) by (apply Hinit; reflexivity).
  split; [exact Hwf|]. apply (Hrun Hwf). reflexivity.
Defined.

(** ** The static stack effect of an instruction *)

Lemma pushStack_count (s s' : Stack) (v : Value) :
  pushStack s v = Ok s' -> count s' = count s + 1.
Proof.
  unfold pushStack. intros H.
  apply bind_Ok_inv in H. destruct H as (d & _ & H). injection H as <-.
  destruct (isStackFull s); reflexivity.
Qed.

Lemma popStack_count (s s' : Stack) (v : Value) :
  popStack s = Ok (v, s') -> count s' = count s - 1.
Proof.
  unfold popStack. destruct (isStackEmpty s); [discriminate|]. intros H.
  apply bind_Ok_inv in H. destruct H as (x & _ & H). injection H as _ <-.
  reflexivity.
Qed.

Lemma pop2_push_count (s s1 s2 s3 : Stack) (vb va r : Value) :
  popStack s = Ok (vb, s1) -> popStack s1 = Ok (va, s2) ->
  pushStack s2 r = Ok s3 -> count s3 = count s - 1.
Proof.
  intros H1 H2 H3. apply popStack_count in H1, H2.
  apply pushStack_count in H3. lia.
Qed.

Lemma BINARY_OP_count (R : float -> float -> Value) (vm vm' : VM) :
  BINARY_OP R vm = Ok (Continue vm') ->
  count (stack vm') = count (stack vm) - 1 /\ ip vm' = ip vm.
Proof.
  intros H. unfold BINARY_OP in H.
  apply bind_Ok_inv in H. destruct H as (top & _ & H).
  apply bind_Ok_inv in H. destruct H as ([|] & _ & H).
  - apply bind_Ok_inv in H. destruct H as (vm1 & _ & H). discriminate H.
  - apply bind_Ok_inv in H. destruct H as ([vb s1] & Hp1 & H).
    apply bind_Ok_inv in H. destruct H as (b & _ & H).
    apply bind_Ok_inv in H. destruct H as ([va s2] & Hp2 & H).
    apply bind_Ok_inv in H. destruct H as (a & _ & H).
    apply bind_Ok_inv in H. destruct H as (s3 & Hp3 & H).
    injection H as <-. simpl.
    split; [exact (pop2_push_count _ _ _ _ _ _ _ Hp1 Hp2 Hp3)|reflexivity].
Qed.

Lemma BINARY_LOGIC_OP_count (op : bool -> bool -> bool) (vm vm' : VM) :
  BINARY_LOGIC_OP op vm = Ok (Continue vm') ->
  count (stack vm') = count (stack vm) - 1 /\ ip vm' = ip vm.
Proof.
  intros H. unfold BINARY_LOGIC_OP in H.
  apply bind_Ok_inv in H. destruct H as ([vb s1] & Hp1 & H).
  apply bind_Ok_inv in H. destruct H as ([va s2] & Hp2 & H).
  apply bind_Ok_inv in H. destruct H as (s3 & Hp3 & H).
  injection H as <-. simpl.
  split; [exact (pop2_push_count _ _ _ _ _ _ _ Hp1 Hp2 Hp3)|reflexivity].
Qed.

Lemma EQUALITY_OP_count (ob : bool -> bool -> bool)
    (od : float -> float -> bool) (vm vm' : VM) :
  EQUALITY_OP ob od vm = Ok (Continue vm') ->
  count (stack vm') = count (stack vm) - 1 /\ ip vm' = ip vm.
Proof.
  intros H. unfold EQUALITY_OP in H.
  apply bind_Ok_inv in H. destruct H as ([vb s1] & Hp1 & H).
  apply bind_Ok_inv in H. destruct H as ([va s2] & Hp2 & H).
  apply bind_Ok_inv in H. destruct H as (s3 & Hp3 & H).
  injection H as <-. simpl. split; [|reflexivity].
  apply popStack_count in Hp1, Hp2.
  assert (Hc : count s3 = count s2 + 1).
  { destruct (negb (ValueType_eqb (type_of va) (type_of vb)));
      [exact (pushStack_count _ _ _ Hp3)|].
    destruct (type_of va); invert_outcome; eauto using pushStack_count. }
  lia.
Qed.

Lemma in_place_count (f : float -> float) (vm vm' : VM) :
  in_place f vm = Ok (Continue vm') ->
  count (stack vm') = count (stack vm) /\ ip vm' = ip vm.
Proof.
  intros H. unfold in_place, THROW_IF_NAN in H.
  apply bind_Ok_inv in H. destruct H as (v & _ & H).
  destruct (negb (IS_NUMBER v)).
  - apply bind_Ok_inv in H. destruct H as (vm1 & _ & H). discriminate H.
  - apply bind_Ok_inv in H. destruct H as (n & _ & H).
    apply bind_Ok_inv in H. destruct H as (d & _ & H).
    injection H as <-. split; reflexivity.
Qed.

Lemma push_literal_count (vm vm' : VM) (v : Value) :
  push_literal vm v = Ok (Continue vm') ->
  count (stack vm') = count (stack vm) + 1 /\ ip vm' = ip vm.
Proof.
  intros H. unfold push_literal in H.
  apply bind_Ok_inv in H. destruct H as (s & Hp & H). injection H as <-.
  split; [exact (pushStack_count _ _ _ Hp)|reflexivity].
Qed.

Section StackEffect.

Variable opcode_of : Z -> option OpCode.

(** X22. Whenever a turn goes on to the next one, the change of the count
    and the move of the cursor depend on the opcode alone: plus one for the
    four loads, none for Negate, Increment, Decrement and Logical-not, minus
    one for every two-operand opcode, none for an undefined byte; the cursor
    moves past the opcode and, for Load-constant, past its operand byte. *)
Theorem stack_effect_is_static (vm vm' : VM) (byte : Z) :
  fetch (code (chunk vm)) (ip vm) = Ok byte ->
  step opcode_of vm = Ok (Continue vm') ->
  count (stack vm') = count (stack vm) + stack_delta (opcode_of byte) /\
  ip vm' = ip vm + 1 + operand_bytes (opcode_of byte).
Proof.
  intros Hf Hs. rewrite (step_dispatch _ _ _ Hf) in Hs.
  unfold dispatch in Hs.
  destruct (opcode_of byte) as [op|]; simpl.
  - destruct op; simpl;
      try (apply BINARY_OP_count in Hs; simpl in Hs; lia);
      try (apply BINARY_LOGIC_OP_count in Hs; simpl in Hs; lia);
      try (apply EQUALITY_OP_count in Hs; simpl in Hs; lia);
      try (apply in_place_count in Hs; simpl in Hs; lia);
      try (apply push_literal_count in Hs; simpl in Hs; lia).
    + apply bind_Ok_inv in Hs. destruct Hs as ([v s] & _ & Hs). discriminate Hs.
    + apply bind_Ok_inv in Hs. destruct Hs as (index & _ & Hs).
      apply bind_Ok_inv in Hs. destruct Hs as (constant & _ & Hs).
      unfold THROW_IF_NAN in Hs. destruct (negb (IS_NUMBER constant)).
      * apply bind_Ok_inv in Hs. destruct Hs as (vm1 & _ & Hs). discriminate Hs.
      * apply push_literal_count in Hs. simpl in Hs. lia.
    + apply bind_Ok_inv in Hs. destruct Hs as ([v s1] & Hp1 & Hs).
      apply bind_Ok_inv in Hs. destruct Hs as (s2 & Hp2 & Hs).
      injection Hs as <-. simpl.
      apply popStack_count in Hp1. apply pushStack_count in Hp2.
      simpl in Hp1. lia.
  - injection Hs as <-. simpl. lia.
Qed.

End StackEffect.

(** Load-constant adds one value and moves two bytes on. *)
Lemma stack_effect_is_static_witness :
  let vm := machine (script [byte_of OP_CONSTANT; 0] [NUMBER_VAL 2])
              (initStack 8) in
  let vm' := set_stack (set_ip vm 2) (stack_of [NUMBER_VAL 2] 8) in
  count (stack vm') = count (stack vm) + stack_delta (in_order (byte_of OP_CONSTANT)) /\
  ip vm' = ip vm + 1 + operand_bytes (in_order (byte_of OP_CONSTANT)).
Proof.
  apply (stack_effect_is_static in_order
           (machine (script [byte_of OP_CONSTANT; 0] [NUMBER_VAL 2])
              (initStack 8))); reflexivity.
Defined.

(** ** The report of a type error *)

Section Report.

Variable opcode_of : Z -> option OpCode.



End Report.



